(** * pravatv_speed: the speed-test plugin (src/plugin.ts)

    A shallow embedding of the two transfer handlers of the plugin, the
    download generator ([GET /download]) and the upload accountant
    ([POST /upload]), together with the size policy that feeds them.

    Conventions of the embedding.

    - A JavaScript string is the list of its UTF-16 code units.
    - A JavaScript Number that holds an integer is a [Z]; every arithmetic
      result goes through [round_double], the IEEE-754 binary64
      round-to-nearest-even of the exact result, so that the model and the
      program agree also beyond 2^53.  [num] adds NaN and the infinities
      where the program can meet them (the result of [parseInt]).
    - Handlers are state transformers on a per-session record; the events of
      the transport ([finish], [aborted], [close], [error], [drain], [data],
      [end]) are the constructors of an event type, and a session is run by
      folding its handlers over a list of events.
    - The answers of [res.write] come from the consumer: they are an oracle
      [nat -> bool], indexed by the number of writes made so far.
    - [Date.now()] is read from the event that runs the handler.
    - The loop of [writeMore] is a recursion on fuel; a loop that does not
      stop within its fuel is [None]. *)

From Stdlib Require Import ZArith List String Ascii Bool Lia.
Import ListNotations.
Local Open Scope Z_scope.

(* ================================================================= *)
(** ** JavaScript values *)

Module JS.

(** UTF-16 code units. *)
Definition jsstring := list N.

Definition js (s : string) : jsstring :=
  map N_of_ascii (list_ascii_of_string s).

(** The integer-valued Numbers, NaN and the two infinities. *)
Inductive num : Type :=
| NaN
| Infinity (negative : bool)
| Fin (z : Z).

(** [Number.MAX_SAFE_INTEGER]. *)
Definition MAX_SAFE_INTEGER : Z := 2 ^ 53 - 1.

(** Round-to-nearest, ties-to-even, to a 53-bit significand. *)
Definition round_double_pos (n : Z) : Z :=
  let e := Z.log2 n - 52 in
  if e <=? 0 then n
  else
    let q := n / 2 ^ e in
    let r := n mod 2 ^ e in
    let half := 2 ^ (e - 1) in
    let q' := if (half <? r) || ((r =? half) && Z.odd q) then q + 1 else q in
    q' * 2 ^ e.

Definition round_double (z : Z) : Z :=
  Z.sgn z * round_double_pos (Z.abs z).

(** The Number value of a mathematical integer. *)
Definition toNumber (z : Z) : num :=
  let r := round_double z in
  if 2 ^ 1024 <=? Z.abs r then Infinity (r <? 0) else Fin r.

(** [a - b] and [a + b] on finite integer Numbers. The program subtracts
    a chunk length from what remains, one clock reading from another, and
    adds a fragment length to a byte count: no result leaves the finite
    range. *)
Definition num_sub (a b : Z) : Z := round_double (a - b).
Definition num_add (a b : Z) : Z := round_double (a + b).

(** StrWhiteSpaceChar: WhiteSpace and LineTerminator code units. *)
Definition isWhiteSpace (c : N) : bool :=
  let c := Z.of_N c in
  (c =? 9) || (c =? 10) || (c =? 11) || (c =? 12) || (c =? 13) || (c =? 32)
  || (c =? 160) || (c =? 5760) || ((8192 <=? c) && (c <=? 8202))
  || (c =? 8232) || (c =? 8233) || (c =? 8239) || (c =? 8287)
  || (c =? 12288) || (c =? 65279).

Definition isDigit (c : N) : bool := ((48 <=? c) && (c <=? 57))%N.

Definition digitValue (c : N) : Z := Z.of_N c - 48.

Fixpoint trimStart (s : jsstring) : jsstring :=
  match s with
  | c :: s' => if isWhiteSpace c then trimStart s' else s
  | [] => []
  end.

(** The longest prefix of decimal digits. *)
Fixpoint digitPrefix (s : jsstring) : jsstring :=
  match s with
  | c :: s' => if isDigit c then c :: digitPrefix s' else []
  | [] => []
  end.

Definition mathInt (ds : jsstring) : Z :=
  fold_left (fun acc c => 10 * acc + digitValue c) ds 0.

(** [Number.parseInt(s, 10)]: leading white space is skipped, one sign is
    read, then the longest run of decimal digits; no digit gives NaN. *)
Definition parseInt10 (s : jsstring) : num :=
  let s := trimStart s in
  let '(sign, s) :=
    match s with
    | c :: s' =>
        if (c =? 45)%N then (-1, s')
        else if (c =? 43)%N then (1, s')
        else (1, s)
    | [] => (1, [])
    end in
  match digitPrefix s with
  | [] => NaN
  | ds => toNumber (sign * mathInt ds)
  end.

End JS.
Import JS.

(* ================================================================= *)
(** ** Configuration: [envInt] and [register] *)

(** [process.env]. *)
Definition environment := string -> option jsstring.

(** [envInt]: an unset or empty variable, and one whose [parseInt] is not a
    finite positive number, give [fallback]. *)
Definition envInt (env : environment) (name : string) (fallback : Z) : Z :=
  match env name with
  | None | Some [] => fallback
  | Some raw =>
      match parseInt10 raw with
      | Fin n => if 0 <? n then n else fallback
      | _ => fallback
      end
  end.

Record config : Type := mkConfig {
  DEFAULT_SIZE : Z;
  MAX_DOWNLOAD : Z;
  MAX_UPLOAD : Z
}.

Definition register (env : environment) : config :=
  {| DEFAULT_SIZE := envInt env "DEFAULT_SIZE" (10 * 1024 * 1024);
     MAX_DOWNLOAD := envInt env "MAX_DOWNLOAD" (100 * 1024 * 1024);
     MAX_UPLOAD := envInt env "MAX_UPLOAD" (100 * 1024 * 1024) |}.

(* ================================================================= *)
(** ** Size policy of [GET /download] *)

(** [String(req.query.size ?? "")]: an absent parameter is the empty
    string; a parameter that is not a string is first made one by
    [String]. *)
Definition qSize (q : option jsstring) : jsstring :=
  match q with Some s => s | None => [] end.

(** Lines 42-44: parse, substitute the default, clamp. *)
Definition resolveDownloadSize (cfg : config) (q : option jsstring) : Z :=
  let size := parseInt10 (qSize q) in
  let size :=
    match size with
    | Fin z => if z <=? 0 then DEFAULT_SIZE cfg else z
    | _ => DEFAULT_SIZE cfg
    end in
  if MAX_DOWNLOAD cfg <? size then MAX_DOWNLOAD cfg else size.

Definition env_empty : environment := fun _ => None.

Definition env_of (l : list (string * string)) : environment :=
  fun name =>
    match find (fun p => String.eqb (fst p) name) l with
    | Some p => Some (js (snd p))
    | None => None
    end.

(* ================================================================= *)
(** ** Download generator: [GET /download] *)

Definition CHUNK : Z := 64 * 1024.

Inductive level : Type := LDebug | LWarn | LError.

(** The log lines of a download session. *)
Inductive dl_entry : Type :=
| DlStart (reqId : string) (requested : jsstring) (total : Z)
| DlEnd (reqId : string) (size : Z) (millis : Z)
| DlAbort (reqId : string)
| DlError (err : string).

Definition dl_level (e : dl_entry) : level :=
  match e with
  | DlStart _ _ _ | DlEnd _ _ _ => LDebug
  | DlAbort _ => LWarn
  | DlError _ => LError
  end.

(** What the generator does to the response stream: a chunk handed to
    [res.write] with the answer it got, and a resumption of the loop by the
    [drain] listener. *)
Inductive io : Type :=
| Wrote (len : Z) (ok : bool)
| Resumed.

(** The constants of one session (lines 47-50) and the consumer's answers
    to [res.write]. *)
Record dl_ctx : Type := mkDlCtx {
  dl_reqId : string;
  total : Z;
  dl_start : Z;
  res_write : nat -> bool
}.

(** The mutable part of a session: the closure variables [remaining] and
    [ended], and what the handlers touch of [res]. [trace] and [dl_log] are
    newest first. *)
Record dl_state : Type := mkDl {
  remaining : Z;
  ended : bool;
  writableEnded : bool;
  drainListeners : nat;
  contentLength : option Z;
  trace : list io;
  dl_log : list dl_entry
}.

Definition set_remaining (r : Z) (st : dl_state) : dl_state :=
  mkDl r (ended st) (writableEnded st) (drainListeners st)
       (contentLength st) (trace st) (dl_log st).

Definition set_ended (b : bool) (st : dl_state) : dl_state :=
  mkDl (remaining st) b (writableEnded st) (drainListeners st)
       (contentLength st) (trace st) (dl_log st).

Definition set_drainListeners (n : nat) (st : dl_state) : dl_state :=
  mkDl (remaining st) (ended st) (writableEnded st) n
       (contentLength st) (trace st) (dl_log st).

Definition dl_emit (a : io) (st : dl_state) : dl_state :=
  mkDl (remaining st) (ended st) (writableEnded st) (drainListeners st)
       (contentLength st) (a :: trace st) (dl_log st).

Definition dl_logger (e : dl_entry) (st : dl_state) : dl_state :=
  mkDl (remaining st) (ended st) (writableEnded st) (drainListeners st)
       (contentLength st) (trace st) (e :: dl_log st).

(** [res.end()]. *)
Definition res_end (st : dl_state) : dl_state :=
  mkDl (remaining st) (ended st) true (drainListeners st)
       (contentLength st) (trace st) (dl_log st).

Definition is_wrote (a : io) : bool :=
  match a with Wrote _ _ => true | Resumed => false end.

Definition nwrites (t : list io) : nat := List.length (filter is_wrote t).

(** Lines 61-66. *)
Definition endOnce (ctx : dl_ctx) (now : Z) (st : dl_state) : dl_state :=
  if ended st then st
  else
    let st := set_ended true st in
    let millis := num_sub now (dl_start ctx) in
    dl_logger (DlEnd (dl_reqId ctx) (total ctx) millis) st.

(** Lines 68-75. *)
Definition abortOnce (ctx : dl_ctx) (st : dl_state) : dl_state :=
  if ended st then st
  else if (remaining st <=? 0) || writableEnded st then st
  else
    let st := set_ended true st in
    dl_logger (DlAbort (dl_reqId ctx)) st.

(** The [while] loop of [writeMore] (lines 91-103). The result carries
    [true] when the loop ran until [remaining <= 0] and [false] when it
    left through the [return] after registering the [drain] listener.
    [None] is a loop that did not stop within [fuel] iterations. *)
Fixpoint writeLoop (ctx : dl_ctx) (fuel : nat) (st : dl_state)
  : option (dl_state * bool) :=
  match fuel with
  | O => None
  | S fuel' =>
      if 0 <? remaining st then
        let len := Z.min CHUNK (remaining st) in
        let st := set_remaining (num_sub (remaining st) len) st in
        let ok := res_write ctx (nwrites (trace st)) in
        let st := dl_emit (Wrote len ok) st in
        if ok then writeLoop ctx fuel' st
        else Some (set_drainListeners (S (drainListeners st)) st, false)
      else Some (st, true)
  end.

(** Lines 88-107. *)
Definition writeMore (ctx : dl_ctx) (fuel : nat) (now : Z) (st : dl_state)
  : option dl_state :=
  if ended st then Some st
  else
    match writeLoop ctx fuel st with
    | None => None
    | Some (st, false) => Some st
    | Some (st, true) => Some (endOnce ctx now (res_end st))
    end.

Inductive dl_event : Type :=
| EvFinish
| EvAborted
| EvClose
| EvError (err : string)
| EvDrain.

(** [res.emit("drain")]: the [once] listeners registered before the event
    are removed and called; one registered by a call waits for the next
    event. *)
Fixpoint fireDrain (ctx : dl_ctx) (fuel : nat) (now : Z) (n : nat)
         (st : dl_state) : option dl_state :=
  match n with
  | O => Some st
  | S n' =>
      match writeMore ctx fuel now (dl_emit Resumed st) with
      | None => None
      | Some st => fireDrain ctx fuel now n' st
      end
  end.

(** The listeners of lines 77-87 and the [drain] listener of line 100. *)
Definition dl_handle (ctx : dl_ctx) (fuel : nat) (now : Z) (e : dl_event)
           (st : dl_state) : option dl_state :=
  match e with
  | EvFinish => Some (endOnce ctx now st)
  | EvAborted => Some (abortOnce ctx st)
  | EvClose => Some (if 0 <? remaining st then abortOnce ctx st else st)
  | EvError err => Some (abortOnce ctx (dl_logger (DlError err) st))
  | EvDrain =>
      fireDrain ctx fuel now (drainListeners st) (set_drainListeners O st)
  end.

Fixpoint dl_run (ctx : dl_ctx) (fuel : nat) (evs : list (Z * dl_event))
         (st : dl_state) : option dl_state :=
  match evs with
  | [] => Some st
  | (now, e) :: evs' =>
      match dl_handle ctx fuel now e st with
      | None => None
      | Some st => dl_run ctx fuel evs' st
      end
  end.

(** The request: its [size] parameter, the identifier drawn for it, the
    clock when the handler starts and when its first [writeMore()] gets to
    [endOnce], and the answers of its consumer. *)
Record dl_request : Type := mkDlReq {
  query_size : option jsstring;
  uuid : string;
  started : Z;
  sync_end : Z;
  consumer : nat -> bool
}.

Definition dl_context (cfg : config) (rq : dl_request) : dl_ctx :=
  {| dl_reqId := uuid rq;
     total := resolveDownloadSize cfg (query_size rq);
     dl_start := started rq;
     res_write := consumer rq |}.

(** The state when [writeMore()] is first called (line 109): sizes
    resolved, start line logged, headers set. *)
Definition dl_init (cfg : config) (rq : dl_request) : dl_state :=
  let size := resolveDownloadSize cfg (query_size rq) in
  {| remaining := size;
     ended := false;
     writableEnded := false;
     drainListeners := O;
     contentLength := Some size;
     trace := [];
     dl_log := [DlStart (uuid rq) (qSize (query_size rq)) size] |}.

(** The handler of [GET /download] followed by the events of the
    session. *)
Definition download (cfg : config) (fuel : nat) (rq : dl_request)
           (evs : list (Z * dl_event)) : option dl_state :=
  match writeMore (dl_context cfg rq) fuel (sync_end rq) (dl_init cfg rq) with
  | None => None
  | Some st => dl_run (dl_context cfg rq) fuel evs st
  end.

(** Observations on a session. *)
Definition chunks (st : dl_state) : list Z :=
  flat_map (fun a => match a with Wrote len _ => [len] | Resumed => [] end)
           (rev (trace st)).

Definition sumZ (l : list Z) : Z := fold_right Z.add 0 l.

Definition is_end (e : dl_entry) : bool :=
  match e with DlEnd _ _ _ => true | _ => false end.

Definition is_abort (e : dl_entry) : bool :=
  match e with DlAbort _ => true | _ => false end.

Definition ends (st : dl_state) : nat := List.length (filter is_end (dl_log st)).
Definition aborts (st : dl_state) : nat :=
  List.length (filter is_abort (dl_log st)).

(* ================================================================= *)
(** ** Upload accountant: [POST /upload] *)

Inductive response : Type :=
| Json200 (bytes : Z) (millis : Z)
| Json413 (message : string) (max : Z)
| Json500 (message : string).

Definition status (r : response) : Z :=
  match r with
  | Json200 _ _ => 200
  | Json413 _ _ => 413
  | Json500 _ => 500
  end.

(** The log lines of an upload session. *)
Inductive ul_entry : Type :=
| UlStart (reqId : string)
| UlAbort (reqId : string)
| UlTooLarge (reqId : string) (bytes : Z) (millis : Z)
| UlEnd (reqId : string) (bytes : Z) (millis : Z)
| UlError (err : string).

Definition ul_level (e : ul_entry) : level :=
  match e with
  | UlStart _ | UlEnd _ _ _ => LDebug
  | UlAbort _ | UlTooLarge _ _ _ => LWarn
  | UlError _ => LError
  end.

Record ul_ctx : Type := mkUlCtx {
  ul_reqId : string;
  ul_start : Z;
  ceiling : Z
}.

(** The closure variables [bytes] and [finished], the flow state of [req]
    and what was sent on [res]. [sent] and [ul_log] are newest first. *)
Record ul_state : Type := mkUl {
  bytes : Z;
  finished : bool;
  paused : bool;
  destroyed : bool;
  sent : list response;
  ul_log : list ul_entry
}.

Definition set_bytes (b : Z) (st : ul_state) : ul_state :=
  mkUl b (finished st) (paused st) (destroyed st) (sent st) (ul_log st).

Definition set_finished (b : bool) (st : ul_state) : ul_state :=
  mkUl (bytes st) b (paused st) (destroyed st) (sent st) (ul_log st).

(** [req.pause()] and [req.destroy()]. *)
Definition req_pause (st : ul_state) : ul_state :=
  mkUl (bytes st) (finished st) true (destroyed st) (sent st) (ul_log st).

Definition req_destroy (st : ul_state) : ul_state :=
  mkUl (bytes st) (finished st) (paused st) true (sent st) (ul_log st).

Definition res_send (r : response) (st : ul_state) : ul_state :=
  mkUl (bytes st) (finished st) (paused st) (destroyed st) (r :: sent st)
       (ul_log st).

Definition ul_logger (e : ul_entry) (st : ul_state) : ul_state :=
  mkUl (bytes st) (finished st) (paused st) (destroyed st) (sent st)
       (e :: ul_log st).

(** Lines 129-133. *)
Definition finishOnce (fn : ul_state -> ul_state) (st : ul_state) : ul_state :=
  if finished st then st else fn (set_finished true st).

(** Lines 135-139. *)
Definition on_aborted (ctx : ul_ctx) (st : ul_state) : ul_state :=
  finishOnce (fun st => ul_logger (UlAbort (ul_reqId ctx)) st) st.

(** Lines 141-160. [len] is [chunk.length]. *)
Definition on_data (ctx : ul_ctx) (now : Z) (len : N) (st : ul_state)
  : ul_state :=
  let st := set_bytes (num_add (bytes st) (Z.of_N len)) st in
  if ceiling ctx <? bytes st then
    let st := req_pause st in
    finishOnce
      (fun st =>
         let millis := num_sub now (ul_start ctx) in
         let st := ul_logger (UlTooLarge (ul_reqId ctx) (bytes st) millis) st in
         let st := res_send (Json413 "Payload too large" (ceiling ctx)) st in
         req_destroy st)
      st
  else st.

(** Lines 162-168. *)
Definition on_end (ctx : ul_ctx) (now : Z) (st : ul_state) : ul_state :=
  finishOnce
    (fun st =>
       let millis := num_sub now (ul_start ctx) in
       let st := ul_logger (UlEnd (ul_reqId ctx) (bytes st) millis) st in
       res_send (Json200 (bytes st) millis) st)
    st.

(** Lines 170-178. *)
Definition on_error (err : string) (st : ul_state) : ul_state :=
  finishOnce
    (fun st =>
       let st := ul_logger (UlError err) st in
       res_send (Json500 "Failed to receive upload") st)
    st.

Inductive ul_event : Type :=
| UpAborted
| UpData (len : N)
| UpEnd
| UpError (err : string).

Definition ul_handle (ctx : ul_ctx) (now : Z) (e : ul_event) (st : ul_state)
  : ul_state :=
  match e with
  | UpAborted => on_aborted ctx st
  | UpData len => on_data ctx now len st
  | UpEnd => on_end ctx now st
  | UpError err => on_error err st
  end.

Fixpoint ul_run (ctx : ul_ctx) (evs : list (Z * ul_event)) (st : ul_state)
  : ul_state :=
  match evs with
  | [] => st
  | (now, e) :: evs' => ul_run ctx evs' (ul_handle ctx now e st)
  end.

Definition ul_context (cfg : config) (reqId : string) (start : Z) : ul_ctx :=
  {| ul_reqId := reqId; ul_start := start; ceiling := MAX_UPLOAD cfg |}.

(** Lines 122-128: the state in which the listeners are registered. *)
Definition ul_init (reqId : string) : ul_state :=
  {| bytes := 0;
     finished := false;
     paused := false;
     destroyed := false;
     sent := [];
     ul_log := [UlStart reqId] |}.

(** The handler of [POST /upload] followed by the events of the session,
    in any order and number. *)
Definition upload (cfg : config) (reqId : string) (start : Z)
           (evs : list (Z * ul_event)) : ul_state :=
  ul_run (ul_context cfg reqId start) evs (ul_init reqId).

(** The byte source of the transport: a readable stream emits [data] only
    while it is flowing, that is neither paused nor destroyed; the handlers
    never resume it. [ul_transport] offers the events of a session in order,
    hands a fragment to the [data] listener only while the stream flows, and
    gives the fragments that were held back. *)
Definition flowing (st : ul_state) : bool :=
  negb (paused st) && negb (destroyed st).

Fixpoint ul_transport (ctx : ul_ctx) (evs : list (Z * ul_event))
         (st : ul_state) : ul_state * list N :=
  match evs with
  | [] => (st, [])
  | (now, UpData len) :: evs' =>
      if flowing st then ul_transport ctx evs' (on_data ctx now len st)
      else
        let '(st, held) := ul_transport ctx evs' st in
        (st, len :: held)
  | (now, e) :: evs' => ul_transport ctx evs' (ul_handle ctx now e st)
  end.

(** A body that arrives as fragments, each at its time. *)
Definition fragments (frags : list (Z * N)) : list (Z * ul_event) :=
  map (fun f => (fst f, UpData (snd f))) frags.

Definition lengths (frags : list (Z * N)) : list N := map snd frags.

Fixpoint data_of (evs : list (Z * ul_event)) : list N :=
  match evs with
  | [] => []
  | (_, UpData len) :: evs' => len :: data_of evs'
  | _ :: evs' => data_of evs'
  end.

(** The four outcomes of an upload. *)
Inductive outcome : Type :=
| Completed (bytes : Z) (millis : Z)
| Oversized (max : Z)
| Aborted
| Errored.

(** The terminal log lines of a session, oldest first. *)
Definition is_terminal (e : ul_entry) : bool :=
  match e with UlStart _ => false | _ => true end.

Definition terminal_lines (st : ul_state) : list ul_entry :=
  filter is_terminal (rev (ul_log st)).

(** The outcome a session shows: its terminal log lines, each with the
    response that belongs to it. *)
Definition outcome_of (ctx : ul_ctx) (e : ul_entry) : list outcome :=
  match e with
  | UlStart _ => []
  | UlAbort _ => [Aborted]
  | UlTooLarge _ _ _ => [Oversized (ceiling ctx)]
  | UlEnd _ b m => [Completed b m]
  | UlError _ => [Errored]
  end.

Definition outcomes (ctx : ul_ctx) (st : ul_state) : list outcome :=
  flat_map (outcome_of ctx) (rev (ul_log st)).

Definition sumN (l : list N) : Z := fold_right (fun n acc => Z.of_N n + acc) 0 l.

(* ================================================================= *)
(** ** Invariants and observations *)

(** A session that has not passed the guard has logged its start line and
    nothing else, and has sent nothing. *)
Definition pristine (st : ul_state) : Prop :=
  terminal_lines st = [] /\ sent st = [].

Definition decided (st : ul_state) : Prop :=
  (exists e, terminal_lines st = [e] /\ is_terminal e = true)
  /\ (List.length (sent st) <= 1)%nat.

Definition guarded (st : ul_state) : Prop :=
  if finished st then decided st else pristine st.

(** The state in which the fragment that crosses the ceiling leaves the
    session. *)
Definition breached (ctx : ul_ctx) (reqId : string) (count : Z) (millis : Z)
  : ul_state :=
  {| bytes := count;
     finished := true;
     paused := true;
     destroyed := true;
     sent := [Json413 "Payload too large" (ceiling ctx)];
     ul_log := [UlTooLarge reqId count millis; UlStart reqId] |}.

(** The last action on the stream was a write that the consumer answered
    with [false]. *)
Definition saturated (t : list io) : bool :=
  match t with
  | Wrote _ false :: _ => true
  | _ => false
  end.

(** On a trace, newest first: a chunk is never written right after a
    saturated write, and the loop is resumed only right after one. *)
Fixpoint flow_ok (t : list io) : bool :=
  match t with
  | [] => true
  | a :: t' =>
      (match a with
       | Wrote _ _ => negb (saturated t')
       | Resumed => saturated t'
       end) && flow_ok t'
  end.

(** Each chunk is [min(CHUNK, remaining)], where [remaining] starts at
    [rem] and goes down by each chunk. *)
Fixpoint chunked (rem : Z) (cs : list Z) : Prop :=
  match cs with
  | [] => True
  | c :: cs' => 0 < rem /\ c = Z.min CHUNK rem /\ chunked (rem - c) cs'
  end.

(** The guard of a download: one terminal line once it is closed, none
    before; a response that was ended has its guard closed; an abort line is
    logged only while bytes remain. *)
Definition terminal (st : dl_state) : Prop :=
  (ends st + aborts st)%nat = (if ended st then 1 else 0)%nat
  /\ (writableEnded st = true -> ended st = true)
  /\ (aborts st = O \/ (0 < remaining st /\ writableEnded st = false)).

Definition regulated (st : dl_state) : Prop :=
  flow_ok (trace st) = true
  /\ drainListeners st = (if saturated (trace st) then 1 else 0)%nat.

(** Between two handlers the session is over or waits for [drain]. *)
Definition quiescent (st : dl_state) : Prop :=
  ended st = true \/ saturated (trace st) = true.

(** What has been written and what remains add up to the declared
    length. *)
Definition accounted (ctx : dl_ctx) (st : dl_state) : Prop :=
  0 <= remaining st
  /\ chunked (total ctx) (chunks st)
  /\ sumZ (chunks st) + remaining st = total ctx
  /\ 0 <= sumZ (chunks st)
  /\ contentLength st = Some (total ctx).

(** The invariant of a session whose loop has fuel for its whole length. *)
Definition streaming (ctx : dl_ctx) (fuel : nat) (st : dl_state) : Prop :=
  accounted ctx st
  /\ (writableEnded st = true -> remaining st = 0)
  /\ total ctx <= CHUNK * (Z.of_nat fuel - 1).

(** The events that lead to [abortOnce]. *)
Definition abort_route (e : dl_event) : bool :=
  match e with
  | EvAborted | EvClose | EvError _ => true
  | EvFinish | EvDrain => false
  end.

(** The error lines of a download, and the [error] events of a session. *)
Definition is_error (e : dl_entry) : bool :=
  match e with DlError _ => true | _ => false end.

Definition errors (st : dl_state) : nat :=
  List.length (filter is_error (dl_log st)).

Definition is_error_event (e : Z * dl_event) : bool :=
  match snd e with EvError _ => true | _ => false end.

(** Every action on the stream was a write that the consumer accepted. *)
Definition accepted (a : io) : bool :=
  match a with Wrote _ ok => ok | Resumed => false end.

(** The chunks of a body of [size] bytes: full chunks, then what is left. *)
Definition full_chunks (size : Z) : list Z :=
  repeat CHUNK (Z.to_nat (size / CHUNK))
  ++ (if size mod CHUNK =? 0 then [] else [size mod CHUNK]).

(** The response that belongs to a terminal line of an upload. *)
Definition reply_of (ctx : ul_ctx) (e : ul_entry) : list response :=
  match e with
  | UlStart _ | UlAbort _ => []
  | UlTooLarge _ _ _ => [Json413 "Payload too large" (ceiling ctx)]
  | UlEnd _ b m => [Json200 b m]
  | UlError _ => [Json500 "Failed to receive upload"]
  end.

Definition is_too_large (e : ul_entry) : bool :=
  match e with UlTooLarge _ _ _ => true | _ => false end.

(** What an upload may report: a count within the ceiling in a 200 and in
    its end line, a count above it in the line of a 413. *)
Definition reply_within (ctx : ul_ctx) (r : response) : Prop :=
  match r with
  | Json200 b _ => 0 <= b <= ceiling ctx
  | _ => True
  end.

Definition line_within (ctx : ul_ctx) (e : ul_entry) : Prop :=
  match e with
  | UlEnd _ b _ => 0 <= b <= ceiling ctx
  | UlTooLarge _ b _ => ceiling ctx < b
  | _ => True
  end.

(** What the events after the guard was closed leave of a download: the
    bytes, the stream and the terminal lines are as they were. *)
Definition frozen (st st' : dl_state) : Prop :=
  ended st' = true
  /\ remaining st' = remaining st
  /\ writableEnded st' = writableEnded st
  /\ chunks st' = chunks st
  /\ ends st' = ends st
  /\ aborts st' = aborts st
  /\ (drainListeners st = O ->
      trace st' = trace st /\ drainListeners st' = O).

(** An upload never leaves its count above the ceiling with the guard
    open, and reports within the ceiling. *)
Definition reported (ctx : ul_ctx) (st : ul_state) : Prop :=
  0 <= bytes st
  /\ (finished st = false -> bytes st <= ceiling ctx)
  /\ Forall (reply_within ctx) (sent st)
  /\ Forall (line_within ctx) (ul_log st).

(** The response and the flags of the request follow the log. *)
Definition answered (ctx : ul_ctx) (st : ul_state) : Prop :=
  rev (sent st) = flat_map (reply_of ctx) (rev (ul_log st))
  /\ destroyed st = existsb is_too_large (ul_log st)
  /\ implb (destroyed st) (paused st) = true.

(** A session that only sees its consumer drain, at the given times. *)
Definition drains (times : list Z) : list (Z * dl_event) :=
  map (fun t => (t, EvDrain)) times.

(** The invariant of a session that has seen nothing but [drain]: it is
    over only when the response was ended. *)
Definition draining (ctx : dl_ctx) (fuel : nat) (st : dl_state) : Prop :=
  streaming ctx fuel st
  /\ regulated st
  /\ quiescent st
  /\ (ended st = true -> writableEnded st = true).

(* ================================================================= *)
(** * Properties *)

(** ** Numbers and [parseInt] *)

Lemma round_double_pos_exact (n : Z) :
  0 <= n <= MAX_SAFE_INTEGER -> round_double_pos n = n.
Proof.
  unfold MAX_SAFE_INTEGER, round_double_pos. intros Hn.
  destruct (Z.eq_dec n 0) as [-> | Hnz]; [reflexivity|].
  assert (Hlog : Z.log2 n < 53) by (apply Z.log2_lt_pow2; lia).
  destruct (Z.leb_spec (Z.log2 n - 52) 0); [reflexivity | lia].
Qed.

Lemma round_double_exact (z : Z) :
  Z.abs z <= MAX_SAFE_INTEGER -> round_double z = z.
Proof.
  intros Hz. unfold round_double.
  rewrite round_double_pos_exact by (split; [apply Z.abs_nonneg | exact Hz]).
  rewrite Z.mul_comm. apply Z.abs_sgn.
Qed.

Lemma toNumber_exact (z : Z) :
  Z.abs z <= MAX_SAFE_INTEGER -> toNumber z = Fin z.
Proof.
  intros Hz. unfold toNumber. rewrite (round_double_exact z Hz).
  destruct (Z.leb_spec (2 ^ 1024) (Z.abs z)) as [Hbig|]; [|reflexivity].
  exfalso. unfold MAX_SAFE_INTEGER in Hz.
  assert (2 ^ 53 < 2 ^ 1024) by (apply Z.pow_lt_mono_r; lia).
  lia.
Qed.

Lemma num_sub_exact (a b : Z) :
  0 <= b <= a -> a <= MAX_SAFE_INTEGER -> num_sub a b = a - b.
Proof. intros. apply round_double_exact. lia. Qed.

Lemma num_add_exact (a b : Z) :
  0 <= a -> 0 <= b -> a + b <= MAX_SAFE_INTEGER -> num_add a b = a + b.
Proof. intros. apply round_double_exact. lia. Qed.

Lemma isDigit_bounds (c : N) : isDigit c = true -> (48 <= c <= 57)%N.
Proof.
  unfold isDigit. intros H. apply andb_true_iff in H as [H1 H2].
  apply N.leb_le in H1. apply N.leb_le in H2. lia.
Qed.

Lemma digit_not_space (c : N) : isDigit c = true -> isWhiteSpace c = false.
Proof.
  intros H. apply isDigit_bounds in H. unfold isWhiteSpace.
  repeat match goal with
         | |- context [?a =? ?b] => destruct (Z.eqb_spec a b); [lia|]
         | |- context [?a <=? ?b] => destruct (Z.leb_spec a b); [lia|]
         end.
  reflexivity.
Qed.

Lemma digitPrefix_app (ds rest : jsstring) :
  forallb isDigit ds = true -> digitPrefix rest = [] ->
  digitPrefix (ds ++ rest) = ds.
Proof.
  intros Hds Hrest. induction ds as [|c ds IH]; simpl in *; [exact Hrest|].
  apply andb_true_iff in Hds as [Hc Hds]. rewrite Hc, IH; auto.
Qed.

(** [parseInt] reads the leading integer and ignores what follows it. *)
Lemma parseInt10_prefix (ds rest : jsstring) :
  ds <> [] -> forallb isDigit ds = true -> digitPrefix rest = [] ->
  parseInt10 (ds ++ rest) = toNumber (mathInt ds).
Proof.
  intros Hne Hds Hrest. destruct ds as [|c ds]; [congruence|].
  pose proof Hds as Hall. simpl in Hds.
  apply andb_true_iff in Hds as [Hc _].
  unfold parseInt10. simpl app. simpl trimStart.
  rewrite (digit_not_space c Hc).
  pose proof (isDigit_bounds c Hc) as Hb.
  destruct (N.eqb_spec c 45); [lia|].
  destruct (N.eqb_spec c 43); [lia|].
  change (c :: ds ++ rest) with ((c :: ds) ++ rest).
  rewrite (digitPrefix_app (c :: ds) rest Hall Hrest).
  rewrite Z.mul_1_l. reflexivity.
Qed.

(** ** Configuration *)

Lemma envInt_pos (env : environment) (name : string) (fallback : Z) :
  0 < fallback -> 0 < envInt env name fallback.
Proof.
  intros Hf. unfold envInt.
  destruct (env name) as [[|c raw]|]; try exact Hf.
  destruct (parseInt10 (c :: raw)) as [| |n]; try exact Hf.
  destruct (Z.ltb_spec 0 n); assumption.
Qed.

Lemma register_pos (env : environment) :
  0 < DEFAULT_SIZE (register env) /\ 0 < MAX_DOWNLOAD (register env)
  /\ 0 < MAX_UPLOAD (register env).
Proof. repeat split; apply envInt_pos; reflexivity. Qed.

(** ** Size policy *)

Section SizePolicy.

Variable env : environment.
Let cfg := register env.

Lemma resolveDownloadSize_bounds (q : option jsstring) :
  1 <= resolveDownloadSize cfg q <= MAX_DOWNLOAD cfg.
Proof.
  destruct (register_pos env) as (Hd & Hm & _). fold cfg in Hd, Hm.
  unfold resolveDownloadSize.
  destruct (parseInt10 (qSize q)) as [| |v];
    repeat match goal with
           | |- context [?a <=? ?b] => destruct (Z.leb_spec a b)
           | |- context [?a <? ?b] => destruct (Z.ltb_spec a b)
           end; lia.
Qed.

(** C4 (as amended): the resolved size lies between 1 and [MAX_DOWNLOAD];
    an absent parameter, one that [parseInt] does not read as a finite
    number and one read as zero or negative give the default clamped to
    [MAX_DOWNLOAD]; a parameter read as a positive number gives that number
    when it does not exceed [MAX_DOWNLOAD] and [MAX_DOWNLOAD] when it
    does. *)
Theorem resolveDownloadSize_spec (q : option jsstring) :
  let size := resolveDownloadSize cfg q in
  1 <= size <= MAX_DOWNLOAD cfg
  /\ resolveDownloadSize cfg None
     = Z.min (DEFAULT_SIZE cfg) (MAX_DOWNLOAD cfg)
  /\ match parseInt10 (qSize q) with
     | Fin v =>
         if v <=? 0 then size = Z.min (DEFAULT_SIZE cfg) (MAX_DOWNLOAD cfg)
         else if v <=? MAX_DOWNLOAD cfg then size = v
         else size = MAX_DOWNLOAD cfg
     | _ => size = Z.min (DEFAULT_SIZE cfg) (MAX_DOWNLOAD cfg)
     end.
Proof.
  cbv zeta. split; [apply resolveDownloadSize_bounds|].
  unfold resolveDownloadSize.
  change (parseInt10 (qSize None)) with NaN. cbv iota.
  destruct (parseInt10 (qSize q)) as [| |v];
    repeat match goal with
           | |- context [?a <=? ?b] => destruct (Z.leb_spec a b)
           | |- context [?a <? ?b] => destruct (Z.ltb_spec a b)
           end; lia.
Qed.

End SizePolicy.

(** With [DEFAULT_SIZE] configured above [MAX_DOWNLOAD], a request without
    a size is not served the default. *)
Lemma resolveDownloadSize_default_clamped :
  let cfg := register (env_of [("DEFAULT_SIZE", "200000000")%string]) in
  DEFAULT_SIZE cfg = 200000000
  /\ resolveDownloadSize cfg None = 104857600
  /\ resolveDownloadSize cfg None <> DEFAULT_SIZE cfg.
Proof. vm_compute. repeat split; discriminate. Qed.

(** A digit string too long for a finite Number is read as [Infinity], and
    the request is served the default, not the maximum. *)
Example resolveDownloadSize_overflow :
  parseInt10 (repeat 57%N 310) = Infinity false
  /\ resolveDownloadSize (register env_empty) (Some (repeat 57%N 310))
     = 10485760.
Proof. vm_compute. split; reflexivity. Qed.

Example resolveDownloadSize_zero :
  resolveDownloadSize (register env_empty) (Some (js "0")) = 10485760.
Proof. reflexivity. Qed.

Example resolveDownloadSize_huge :
  resolveDownloadSize (register env_empty) (Some (js "999999999")) = 104857600.
Proof. reflexivity. Qed.

(** C10: a value that starts with decimal digits and goes on with other
    characters is read as its leading integer, in the query parameter and in
    the environment alike; it is not replaced by the default or the
    fallback. *)
Theorem leading_integer_is_used
        (cfg : config) (env : environment) (name : string) (fallback : Z)
        (ds rest : jsstring) :
  ds <> [] ->
  forallb isDigit ds = true ->
  digitPrefix rest = [] ->
  0 < mathInt ds <= MAX_SAFE_INTEGER ->
  env name = Some (ds ++ rest) ->
  parseInt10 (ds ++ rest) = Fin (mathInt ds)
  /\ resolveDownloadSize cfg (Some (ds ++ rest))
     = Z.min (mathInt ds) (MAX_DOWNLOAD cfg)
  /\ envInt env name fallback = mathInt ds.
Proof.
  intros Hne Hds Hrest Hv Henv.
  assert (Hp : parseInt10 (ds ++ rest) = Fin (mathInt ds)).
  { rewrite parseInt10_prefix by assumption. apply toNumber_exact. lia. }
  split; [exact Hp|]. split.
  - unfold resolveDownloadSize. simpl qSize. rewrite Hp.
    destruct (Z.leb_spec (mathInt ds) 0); [lia|].
    destruct (Z.ltb_spec (MAX_DOWNLOAD cfg) (mathInt ds)); lia.
  - unfold envInt. rewrite Henv.
    destruct (ds ++ rest) as [|c l] eqn:E.
    + destruct ds; [congruence | discriminate].
    + rewrite Hp. destruct (Z.ltb_spec 0 (mathInt ds)); lia.
Qed.

Lemma leading_integer_is_used_witness :
  parseInt10 (js "12abc") = Fin 12
  /\ resolveDownloadSize (register env_empty) (Some (js "12abc")) = 12
  /\ envInt (env_of [("MAX_UPLOAD", "12abc")%string]) "MAX_UPLOAD" 104857600 = 12.
Proof.
  exact (leading_integer_is_used
           (register env_empty) (env_of [("MAX_UPLOAD", "12abc")%string])
           "MAX_UPLOAD" 104857600 (js "12") (js "abc")
           ltac:(discriminate) eq_refl eq_refl
           ltac:(vm_compute; split; [reflexivity | discriminate]) eq_refl).
Defined.

Example leading_integer_of_decimal :
  parseInt10 (js "3.9") = Fin 3
  /\ resolveDownloadSize (register env_empty) (Some (js "3.9")) = 3
  /\ envInt (env_of [("DEFAULT_SIZE", "3.9")%string]) "DEFAULT_SIZE" 10485760 = 3.
Proof. repeat split. Qed.

(** ** Upload accountant *)

Section Upload.

Variable ctx : ul_ctx.

Lemma ul_run_app (evs1 evs2 : list (Z * ul_event)) (st : ul_state) :
  ul_run ctx (evs1 ++ evs2) st = ul_run ctx evs2 (ul_run ctx evs1 st).
Proof.
  revert st. induction evs1 as [|[now e] evs1 IH]; intros st; simpl; auto.
Qed.

(** Behind the guard nothing is sent and nothing is logged. *)
Lemma ul_handle_finished (now : Z) (e : ul_event) (st : ul_state) :
  finished st = true ->
  finished (ul_handle ctx now e st) = true
  /\ sent (ul_handle ctx now e st) = sent st
  /\ ul_log (ul_handle ctx now e st) = ul_log st.
Proof.
  intros Hf. destruct e; simpl;
    unfold on_aborted, on_data, on_end, on_error, finishOnce; simpl;
    rewrite ?Hf; auto.
  destruct (ceiling ctx <? _); simpl; rewrite ?Hf; auto.
Qed.

Lemma ul_run_finished (evs : list (Z * ul_event)) (st : ul_state) :
  finished st = true ->
  finished (ul_run ctx evs st) = true
  /\ sent (ul_run ctx evs st) = sent st
  /\ ul_log (ul_run ctx evs st) = ul_log st.
Proof.
  revert st. induction evs as [|[now e] evs IH]; intros st Hf; simpl; auto.
  destruct (ul_handle_finished now e st Hf) as (Hf' & Hs & Hl).
  destruct (IH _ Hf') as (? & ? & ?). repeat split; congruence.
Qed.

Lemma ul_handle_guarded (now : Z) (e : ul_event) (st : ul_state) :
  guarded st -> guarded (ul_handle ctx now e st).
Proof.
  unfold guarded. destruct (finished st) eqn:Hf.
  - destruct (ul_handle_finished now e st Hf) as (Hf' & Hs & Hl).
    rewrite Hf'. unfold decided, terminal_lines. now rewrite Hs, Hl.
  - intros [Ht Hs]. unfold decided, pristine, terminal_lines in *.
    destruct e; simpl;
      unfold on_aborted, on_data, on_end, on_error, finishOnce; simpl;
      rewrite ?Hf; simpl.
    2: destruct (ceiling ctx <? _); simpl; rewrite ?Hf; simpl.
    all: rewrite ?filter_app, ?Ht, ?Hs; simpl; auto.
    all: split; [eexists; split; reflexivity | lia].
Qed.

Lemma ul_run_guarded (evs : list (Z * ul_event)) (st : ul_state) :
  guarded st -> guarded (ul_run ctx evs st).
Proof.
  revert st. induction evs as [|[now e] evs IH]; intros st H; simpl; auto.
  apply IH, ul_handle_guarded, H.
Qed.

Lemma outcomes_terminal_lines (st : ul_state) :
  outcomes ctx st = flat_map (outcome_of ctx) (terminal_lines st).
Proof.
  unfold outcomes, terminal_lines.
  induction (rev (ul_log st)) as [|e l IH]; simpl; [reflexivity|].
  destruct e; simpl; rewrite IH; reflexivity.
Qed.

Lemma outcomes_length (st : ul_state) :
  List.length (outcomes ctx st) = List.length (terminal_lines st).
Proof.
  rewrite outcomes_terminal_lines. unfold terminal_lines.
  induction (rev (ul_log st)) as [|e l IH]; simpl; [reflexivity|].
  destruct e; simpl; rewrite ?IH; reflexivity.
Qed.

End Upload.

Lemma ul_init_guarded (reqId : string) : guarded (ul_init reqId).
Proof. split; reflexivity. Qed.

(** C2: an upload shows at most one outcome, with one terminal log line and
    at most one response; the first event that reaches the guard decides
    which, and no later event adds a response or a terminal line. *)
Theorem upload_finalizes_once
        (cfg : config) (reqId : string) (start : Z)
        (evs : list (Z * ul_event)) :
  let ctx := ul_context cfg reqId start in
  let st := upload cfg reqId start evs in
  List.length (outcomes ctx st) = (if finished st then 1 else 0)%nat
  /\ List.length (terminal_lines st) = List.length (outcomes ctx st)
  /\ (List.length (sent st) <= 1)%nat
  /\ (finished st = false ->
      forall (now : Z) (e : ul_event),
        let st' := upload cfg reqId start (evs ++ [(now, e)]) in
        match e with
        | UpAborted => outcomes ctx st' = [Aborted] /\ sent st' = []
        | UpData len =>
            if MAX_UPLOAD cfg <? num_add (bytes st) (Z.of_N len)
            then outcomes ctx st' = [Oversized (MAX_UPLOAD cfg)]
                 /\ sent st' = [Json413 "Payload too large" (MAX_UPLOAD cfg)]
            else outcomes ctx st' = [] /\ sent st' = []
        | UpEnd =>
            outcomes ctx st' = [Completed (bytes st) (num_sub now start)]
            /\ sent st' = [Json200 (bytes st) (num_sub now start)]
        | UpError _ =>
            outcomes ctx st' = [Errored]
            /\ sent st' = [Json500 "Failed to receive upload"]
        end)
  /\ (finished st = true ->
      forall more : list (Z * ul_event),
        let st' := upload cfg reqId start (evs ++ more) in
        outcomes ctx st' = outcomes ctx st
        /\ terminal_lines st' = terminal_lines st
        /\ sent st' = sent st).
Proof.
  intros ctx st.
  assert (G : guarded st) by (apply ul_run_guarded, ul_init_guarded).
  split; [|split; [|split; [|split]]].
  - rewrite outcomes_length. unfold guarded in G.
    destruct (finished st).
    + destruct G as [[e [-> _]] _]. reflexivity.
    + destruct G as [-> _]. reflexivity.
  - symmetry. apply outcomes_length.
  - unfold guarded in G. destruct (finished st).
    + apply G.
    + destruct G as [_ ->]. simpl. lia.
  - intros Hf now e st'.
    assert (E : st' = ul_handle ctx now e st).
    { unfold st', upload. rewrite ul_run_app. reflexivity. }
    unfold guarded in G. rewrite Hf in G. destruct G as [Ht Hs].
    rewrite E. clear E st'. rewrite !outcomes_terminal_lines.
    unfold terminal_lines in *.
    destruct e; simpl;
      unfold on_aborted, on_data, on_end, on_error, finishOnce; simpl;
      rewrite ?Hf; simpl.
    2: destruct (MAX_UPLOAD cfg <? _); simpl; rewrite ?Hf; simpl.
    all: rewrite ?filter_app, ?Ht, ?Hs; simpl; auto.
  - intros Hf more st'.
    assert (E : st' = ul_run ctx more st).
    { unfold st', upload. rewrite ul_run_app. reflexivity. }
    destruct (ul_run_finished ctx more st Hf) as (_ & Hs & Hl).
    rewrite E. unfold outcomes, terminal_lines. rewrite Hs, Hl. auto.
Qed.

Lemma upload_finalizes_once_witness :
  let cfg := mkConfig 10 10 100 in
  let ctx := ul_context cfg "u" 5 in
  outcomes ctx (upload cfg "u" 5 [(6, UpData 60%N); (9, UpEnd)])
  = [Completed 60 4]
  /\ outcomes ctx
       (upload cfg "u" 5
               [(6, UpData 60%N); (7, UpAborted); (8, UpData 50%N);
                (9, UpEnd); (10, UpError "reset")])
     = [Aborted].
Proof.
  split.
  - exact (proj1
             (proj1 (proj2 (proj2 (proj2
                (upload_finalizes_once (mkConfig 10 10 100) "u" 5
                                       [(6, UpData 60%N)]))))
                    eq_refl 9 UpEnd)).
  - exact (proj1
             (proj2 (proj2 (proj2 (proj2
                (upload_finalizes_once (mkConfig 10 10 100) "u" 5
                                       [(6, UpData 60%N); (7, UpAborted)]))))
                    eq_refl
                    [(8, UpData 50%N); (9, UpEnd); (10, UpError "reset")])).
Defined.

(** ** The upload accountant on the transport *)

Section Accountant.

Variable ctx : ul_ctx.

Lemma sumN_nonneg (l : list N) : 0 <= sumN l.
Proof. induction l as [|n l IH]; simpl; lia. Qed.

Lemma sumN_app (l1 l2 : list N) : sumN (l1 ++ l2) = sumN l1 + sumN l2.
Proof. induction l1 as [|n l1 IH]; simpl; lia. Qed.

Lemma sumN_firstn_le (k : nat) (l : list N) :
  sumN (firstn k l) <= sumN (firstn (S k) l) <= sumN l.
Proof.
  revert k. induction l as [|n l IH]; intros k.
  - rewrite !firstn_nil. simpl. lia.
  - destruct k as [|k].
    + simpl. pose proof (sumN_nonneg l).
      destruct l; simpl in *; lia.
    + specialize (IH k). change (firstn (S (S k)) (n :: l))
        with (n :: firstn (S k) l).
      change (firstn (S k) (n :: l)) with (n :: firstn k l).
      simpl sumN in *. lia.
Qed.

Lemma lengths_app (l1 l2 : list (Z * N)) :
  lengths (l1 ++ l2) = lengths l1 ++ lengths l2.
Proof. apply map_app. Qed.

Lemma fragments_app (l1 l2 : list (Z * N)) :
  fragments (l1 ++ l2) = fragments l1 ++ fragments l2.
Proof. apply map_app. Qed.

Lemma lengths_firstn (k : nat) (l : list (Z * N)) :
  lengths (firstn k l) = firstn k (lengths l).
Proof. unfold lengths. symmetry. apply firstn_map. Qed.

Lemma data_of_app (evs1 evs2 : list (Z * ul_event)) :
  data_of (evs1 ++ evs2) = data_of evs1 ++ data_of evs2.
Proof.
  induction evs1 as [|[now e] evs1 IH]; simpl; [reflexivity|].
  destruct e; simpl; rewrite IH; reflexivity.
Qed.

Lemma data_of_fragments (l : list (Z * N)) : data_of (fragments l) = lengths l.
Proof. induction l as [|[now n] l IH]; simpl; [|rewrite IH]; reflexivity. Qed.

Lemma set_bytes_same (st : ul_state) (b : Z) :
  b = bytes st -> set_bytes b st = st.
Proof. intros ->. destruct st; reflexivity. Qed.

(** While the running total stays within the ceiling, each fragment is
    counted and nothing else happens. *)
Lemma transport_within (frags : list (Z * N)) (evs : list (Z * ul_event))
      (st : ul_state) :
  flowing st = true ->
  0 <= bytes st ->
  bytes st + sumN (lengths frags) <= ceiling ctx ->
  bytes st + sumN (lengths frags) <= MAX_SAFE_INTEGER ->
  ul_transport ctx (fragments frags ++ evs) st
  = ul_transport ctx evs (set_bytes (bytes st + sumN (lengths frags)) st).
Proof.
  revert st. induction frags as [|[now len] frags IH]; intros st Hfl Hb Hc Hs.
  - simpl. rewrite set_bytes_same by lia. reflexivity.
  - simpl in *. pose proof (sumN_nonneg (lengths frags)) as Hn.
    rewrite Hfl. unfold on_data. simpl.
    rewrite num_add_exact by lia.
    destruct (Z.ltb_spec (ceiling ctx) (bytes st + Z.of_N len)); [lia|].
    rewrite IH; simpl; try assumption; try lia.
    unfold set_bytes. simpl. do 2 f_equal. lia.
Qed.

(** Behind the guard and with the source paused, no event changes the
    session and every fragment is held back. *)
Lemma transport_stopped (evs : list (Z * ul_event)) (st : ul_state) :
  finished st = true -> paused st = true ->
  ul_transport ctx evs st = (st, data_of evs).
Proof.
  intros Hf Hp. induction evs as [|[now e] evs IH]; simpl; [reflexivity|].
  destruct e; simpl;
    unfold flowing, on_aborted, on_end, on_error, finishOnce;
    rewrite ?Hp, ?Hf; simpl; rewrite IH; reflexivity.
Qed.

Lemma transport_breach (pre : list (Z * N)) (now : Z) (len : N)
      (more : list (Z * ul_event)) :
  sumN (lengths pre) <= ceiling ctx ->
  ceiling ctx < sumN (lengths pre) + Z.of_N len ->
  sumN (lengths pre) + Z.of_N len <= MAX_SAFE_INTEGER ->
  ul_transport ctx (fragments pre ++ (now, UpData len) :: more)
               (ul_init (ul_reqId ctx))
  = (breached ctx (ul_reqId ctx) (sumN (lengths pre) + Z.of_N len)
              (num_sub now (ul_start ctx)),
     data_of more).
Proof.
  intros Hle Hgt Hs. pose proof (sumN_nonneg (lengths pre)) as Hn.
  rewrite transport_within; simpl; try reflexivity; try lia.
  unfold on_data. simpl. rewrite num_add_exact by lia.
  destruct (Z.ltb_spec (ceiling ctx) (sumN (lengths pre) + Z.of_N len));
    [|lia].
  unfold finishOnce. simpl.
  apply transport_stopped; reflexivity.
Qed.

(** The fragment at which a body that is too large crosses the ceiling. *)
Lemma first_crossing (frags : list (Z * N)) (M : Z) :
  0 <= M -> M < sumN (lengths frags) ->
  exists pre now len rest,
    frags = pre ++ (now, len) :: rest
    /\ sumN (lengths pre) <= M < sumN (lengths pre) + Z.of_N len.
Proof.
  intros HM. induction frags as [|[now len] frags IH] using rev_ind.
  - simpl. lia.
  - rewrite lengths_app, sumN_app. simpl. intros H.
    destruct (Z.lt_ge_cases M (sumN (lengths frags))) as [Hlt|Hge].
    + destruct (IH Hlt) as (pre & now' & len' & rest & -> & Hb).
      exists pre, now', len', (rest ++ [(now, len)]).
      rewrite <- app_assoc. simpl. auto.
    + exists frags, now, len, []. split; [reflexivity | lia].
Qed.

End Accountant.

(** C5: the ceiling is checked after each fragment is counted. The first
    fragment that takes the count above [MAX_UPLOAD] pauses the source,
    sends 413 with the message and the ceiling, logs the count and the
    elapsed time, destroys the connection and closes the guard; whatever
    arrives afterwards is held back and changes nothing. *)
Theorem ceiling_breach
        (cfg : config) (reqId : string) (start : Z)
        (pre : list (Z * N)) (now : Z) (len : N)
        (more : list (Z * ul_event)) :
  let ctx := ul_context cfg reqId start in
  let count := sumN (lengths pre) + Z.of_N len in
  sumN (lengths pre) <= MAX_UPLOAD cfg ->
  MAX_UPLOAD cfg < count ->
  count <= MAX_SAFE_INTEGER ->
  let before := ul_transport ctx (fragments pre) (ul_init reqId) in
  let breach :=
    fst (ul_transport ctx (fragments (pre ++ [(now, len)])) (ul_init reqId)) in
  let after :=
    ul_transport ctx (fragments (pre ++ [(now, len)]) ++ more)
                 (ul_init reqId) in
  before = (set_bytes (sumN (lengths pre)) (ul_init reqId), [])
  /\ bytes breach = count
  /\ paused breach = true
  /\ sent breach = [Json413 "Payload too large" (MAX_UPLOAD cfg)]
  /\ ul_log breach = [UlTooLarge reqId count (num_sub now start); UlStart reqId]
  /\ destroyed breach = true
  /\ finished breach = true
  /\ after = (breach, data_of more).
Proof.
  intros ctx count Hle Hgt Hs before breach after.
  pose proof (sumN_nonneg (lengths pre)) as Hn.
  assert (Hb : forall evs,
             ul_transport ctx (fragments (pre ++ [(now, len)]) ++ evs)
                          (ul_init reqId)
             = (breached ctx reqId count (num_sub now start), data_of evs)).
  { intros evs. rewrite fragments_app, <- app_assoc. simpl.
    apply (transport_breach ctx pre now len evs); assumption. }
  assert (Hbreach : breach = breached ctx reqId count (num_sub now start)).
  { unfold breach. rewrite <- (app_nil_r (fragments _)), Hb. reflexivity. }
  split.
  - unfold before. rewrite <- (app_nil_r (fragments pre)).
    rewrite transport_within; simpl; try reflexivity; lia.
  - rewrite Hbreach. repeat split. apply Hb.
Qed.

Lemma ceiling_breach_witness :
  let cfg := mkConfig 10 10 100 in
  let ctx := ul_context cfg "u" 5 in
  ul_transport ctx
    (fragments ([(6, 60%N)] ++ [(8, 50%N)]) ++ [(9, UpData 7%N); (10, UpEnd)])
    (ul_init "u")
  = ({| bytes := 110; finished := true; paused := true; destroyed := true;
        sent := [Json413 "Payload too large" 100];
        ul_log := [UlTooLarge "u" 110 3; UlStart "u"] |}, [7%N]).
Proof.
  exact (proj2 (proj2 (proj2 (proj2 (proj2 (proj2 (proj2
    (ceiling_breach (mkConfig 10 10 100) "u" 5 [(6, 60%N)] 8 50%N
                    [(9, UpData 7%N); (10, UpEnd)]
                    ltac:(vm_compute; discriminate)
                    ltac:(vm_compute; reflexivity)
                    ltac:(vm_compute; discriminate))))))))).
Defined.

(** C6: a body whose fragments add up to at most [MAX_UPLOAD], followed by
    the end of the stream, is answered 200 with the number of bytes
    received and the elapsed time; the count after each fragment is the sum
    of the fragments so far and never decreases. *)
Theorem completed_upload
        (cfg : config) (reqId : string) (start : Z)
        (frags : list (Z * N)) (tend : Z) (k : nat) :
  let ctx := ul_context cfg reqId start in
  let received := sumN (lengths frags) in
  received <= MAX_UPLOAD cfg ->
  received <= MAX_SAFE_INTEGER ->
  let final :=
    ul_transport ctx (fragments frags ++ [(tend, UpEnd)]) (ul_init reqId) in
  let soFar n :=
    bytes (fst (ul_transport ctx (fragments (firstn n frags))
                             (ul_init reqId))) in
  snd final = []
  /\ outcomes ctx (fst final) = [Completed received (num_sub tend start)]
  /\ sent (fst final) = [Json200 received (num_sub tend start)]
  /\ soFar k = sumN (lengths (firstn k frags))
  /\ soFar k <= soFar (S k).
Proof.
  intros ctx received Hle Hs final soFar.
  pose proof (sumN_nonneg (lengths frags)) as Hn.
  assert (Hfinal : final
                   = (on_end ctx tend (set_bytes received (ul_init reqId)), [])).
  { unfold final. rewrite transport_within; simpl; try reflexivity; lia. }
  assert (HsoFar : forall n, soFar n = sumN (lengths (firstn n frags))).
  { intros n. unfold soFar.
    pose proof (sumN_firstn_le n (lengths frags)) as Hm.
    pose proof (sumN_firstn_le (S n) (lengths frags)) as Hm'.
    pose proof (sumN_nonneg (lengths (firstn n frags))).
    rewrite <- (app_nil_r (fragments _)).
    rewrite transport_within; simpl; try reflexivity;
      rewrite lengths_firstn in *; fold received in Hm, Hm'; lia. }
  rewrite Hfinal. repeat split.
  - apply HsoFar.
  - rewrite !HsoFar, !lengths_firstn.
    apply (sumN_firstn_le k (lengths frags)).
Qed.

Lemma completed_upload_witness :
  let cfg := mkConfig 10 10 100 in
  let ctx := ul_context cfg "u" 5 in
  let final :=
    ul_transport ctx (fragments [(6, 60%N); (8, 40%N)] ++ [(9, UpEnd)])
                 (ul_init "u") in
  snd final = []
  /\ outcomes ctx (fst final) = [Completed 100 4]
  /\ sent (fst final) = [Json200 100 4]
  /\ bytes (fst (ul_transport ctx (fragments [(6, 60%N)]) (ul_init "u"))) = 60
  /\ 60 <= 100.
Proof.
  exact (completed_upload (mkConfig 10 10 100) "u" 5
                          [(6, 60%N); (8, 40%N)] 9 1
                          ltac:(vm_compute; discriminate)
                          ltac:(vm_compute; discriminate)).
Defined.

(** C7: a body whose fragments add up to more than [MAX_UPLOAD] ends
    Oversized whatever follows; the count stops at the fragment that
    crossed the ceiling, and the fragments after it never reach the
    accountant. *)
Theorem oversized_upload
        (env : environment) (reqId : string) (start : Z)
        (frags : list (Z * N)) (more : list (Z * ul_event)) :
  let cfg := register env in
  let ctx := ul_context cfg reqId start in
  MAX_UPLOAD cfg < sumN (lengths frags) ->
  sumN (lengths frags) <= MAX_SAFE_INTEGER ->
  let final := ul_transport ctx (fragments frags ++ more) (ul_init reqId) in
  exists pre now len rest,
    frags = pre ++ (now, len) :: rest
    /\ sumN (lengths pre) <= MAX_UPLOAD cfg < sumN (lengths pre) + Z.of_N len
    /\ outcomes ctx (fst final) = [Oversized (MAX_UPLOAD cfg)]
    /\ bytes (fst final) = sumN (lengths pre) + Z.of_N len
    /\ flowing (fst final) = false
    /\ snd final = lengths rest ++ data_of more.
Proof.
  intros cfg ctx Hgt Hs final.
  destruct (register_pos env) as (_ & _ & Hpos). fold cfg in Hpos.
  destruct (first_crossing frags (MAX_UPLOAD cfg)) as
      (pre & now & len & rest & E & Hb); [lia | exact Hgt |].
  exists pre, now, len, rest. split; [exact E|]. split; [exact Hb|].
  assert (Hfinal : final
                   = (breached ctx reqId (sumN (lengths pre) + Z.of_N len)
                               (num_sub now start),
                      lengths rest ++ data_of more)).
  { unfold final. rewrite E, fragments_app, <- app_assoc. simpl.
    etransitivity;
      [apply (transport_breach ctx pre now len (fragments rest ++ more))|].
    - apply Hb.
    - apply Hb.
    - rewrite E, lengths_app, sumN_app in Hs. simpl in Hs.
      pose proof (sumN_nonneg (lengths rest)). lia.
    - rewrite data_of_app, data_of_fragments. reflexivity. }
  rewrite Hfinal. repeat split.
Qed.

Lemma oversized_upload_witness :
  let cfg := register (env_of [("MAX_UPLOAD", "100")%string]) in
  let ctx := ul_context cfg "u" 5 in
  let frags := [(6, 60%N); (8, 50%N); (9, 7%N)] in
  let final :=
    ul_transport ctx (fragments frags ++ [(10, UpEnd)]) (ul_init "u") in
  exists pre now len rest,
    frags = pre ++ (now, len) :: rest
    /\ sumN (lengths pre) <= MAX_UPLOAD cfg < sumN (lengths pre) + Z.of_N len
    /\ outcomes ctx (fst final) = [Oversized (MAX_UPLOAD cfg)]
    /\ bytes (fst final) = sumN (lengths pre) + Z.of_N len
    /\ flowing (fst final) = false
    /\ snd final = lengths rest ++ data_of [(10, UpEnd)].
Proof.
  exact (oversized_upload (env_of [("MAX_UPLOAD", "100")%string]) "u" 5
                          [(6, 60%N); (8, 50%N); (9, 7%N)] [(10, UpEnd)]
                          ltac:(vm_compute; reflexivity)
                          ltac:(vm_compute; discriminate)).
Defined.

Example upload_150MiB :
  let cfg := register env_empty in
  let ctx := ul_context cfg "u" 0 in
  let final :=
    ul_transport ctx (fragments (repeat (1, 15728640%N) 10) ++ [(20, UpEnd)])
                 (ul_init "u") in
  sent (fst final) = [Json413 "Payload too large" 104857600]
  /\ bytes (fst final) = 110100480
  /\ snd final = repeat 15728640%N 3.
Proof. vm_compute. repeat split. Qed.

Example upload_abandoned :
  let cfg := register env_empty in
  let st := upload cfg "u" 0 [(1, UpData 500%N); (2, UpAborted)] in
  sent st = [] /\ outcomes (ul_context cfg "u" 0) st = [Aborted].
Proof. vm_compute. repeat split. Qed.

(** ** Download generator *)

Section Download.

Variable ctx : dl_ctx.

(** *** The guard *)

Lemma endOnce_terminal (now : Z) (st : dl_state) :
  terminal st -> terminal (endOnce ctx now st).
Proof.
  unfold terminal, endOnce, ends, aborts.
  destruct (ended st) eqn:E; simpl; [rewrite E; auto|].
  intros (H & _ & _). split; [lia | split; [auto | left; lia]].
Qed.

Lemma abortOnce_terminal (st : dl_state) :
  terminal st -> terminal (abortOnce ctx st).
Proof.
  unfold terminal, abortOnce, ends, aborts.
  destruct (ended st) eqn:E; simpl; [rewrite E; auto|].
  destruct ((remaining st <=? 0) || writableEnded st) eqn:G; simpl;
    [rewrite E; auto|].
  apply orb_false_iff in G as [Gr Gw]. apply Z.leb_gt in Gr.
  intros (H & _ & _). split; [lia | split; [auto | right; auto]].
Qed.

(** The loop touches neither the guard nor the log. *)
Lemma writeLoop_frame (fuel : nat) (st st' : dl_state) (b : bool) :
  writeLoop ctx fuel st = Some (st', b) ->
  ended st' = ended st /\ writableEnded st' = writableEnded st
  /\ dl_log st' = dl_log st /\ contentLength st' = contentLength st.
Proof.
  revert st. induction fuel as [|fuel IH]; intros st; simpl; [discriminate|].
  destruct (0 <? remaining st).
  - destruct (res_write ctx _).
    + intros H. apply IH in H. simpl in H. exact H.
    + intros H. inversion H; subst. simpl. auto.
  - intros H. inversion H; subst. auto.
Qed.

Lemma writeMore_terminal (fuel : nat) (now : Z) (st st' : dl_state) :
  writeMore ctx fuel now st = Some st' -> terminal st -> terminal st'.
Proof.
  unfold writeMore. destruct (ended st) eqn:E.
  - intros H; inversion H; subst; auto.
  - destruct (writeLoop ctx fuel st) as [[st1 [|]]|] eqn:L; try discriminate;
      intros H (Hc & Hwe & _); inversion H; subst; clear H;
      destruct (writeLoop_frame _ _ _ _ L) as (He & Hw & Hl & _);
      rewrite E in Hc.
    + unfold terminal, endOnce, res_end, ends, aborts in *. simpl.
      rewrite He, E. simpl. rewrite Hl.
      split; [lia | split; [auto | left; lia]].
    + unfold terminal, ends, aborts in *. rewrite He, Hw, Hl, E.
      split; [lia | split; [intros Hx; specialize (Hwe Hx); congruence
                           | left; lia]].
Qed.

Lemma fireDrain_terminal (fuel : nat) (now : Z) (n : nat)
      (st st' : dl_state) :
  fireDrain ctx fuel now n st = Some st' -> terminal st -> terminal st'.
Proof.
  revert st. induction n as [|n IH]; intros st; simpl.
  - intros H; inversion H; subst; auto.
  - destruct (writeMore ctx fuel now (dl_emit Resumed st)) as [st1|] eqn:W;
      [|discriminate].
    intros H T. apply (IH _ H). apply (writeMore_terminal _ _ _ _ W).
    exact T.
Qed.

Lemma dl_handle_terminal (fuel : nat) (now : Z) (e : dl_event)
      (st st' : dl_state) :
  dl_handle ctx fuel now e st = Some st' -> terminal st -> terminal st'.
Proof.
  destruct e; simpl; intros H T;
    [| | | |exact (fireDrain_terminal _ _ _ _ _ H T)];
    inversion H; subst; clear H.
  - apply endOnce_terminal, T.
  - apply abortOnce_terminal, T.
  - destruct (0 <? remaining st); [apply abortOnce_terminal|]; exact T.
  - apply abortOnce_terminal. exact T.
Qed.

Lemma dl_run_app (fuel : nat) (evs1 evs2 : list (Z * dl_event))
      (st : dl_state) :
  dl_run ctx fuel (evs1 ++ evs2) st
  = match dl_run ctx fuel evs1 st with
    | Some st' => dl_run ctx fuel evs2 st'
    | None => None
    end.
Proof.
  revert st. induction evs1 as [|[now e] evs1 IH]; intros st; simpl; auto.
  destruct (dl_handle ctx fuel now e st); auto.
Qed.

(** An invariant of the handlers is an invariant of the session. *)
Lemma dl_run_invariant (I : dl_state -> Prop) (fuel : nat) :
  (forall now e st st',
      dl_handle ctx fuel now e st = Some st' -> I st -> I st') ->
  forall evs st st', dl_run ctx fuel evs st = Some st' -> I st -> I st'.
Proof.
  intros Hstep evs. induction evs as [|[now e] evs IH]; intros st st'; simpl.
  - intros H; inversion H; subst; auto.
  - destruct (dl_handle ctx fuel now e st) as [st1|] eqn:Hh; [|discriminate].
    intros H Hi. apply (IH _ _ H). apply (Hstep _ _ _ _ Hh Hi).
Qed.


Lemma close_is_abortOnce (st : dl_state) :
  (if 0 <? remaining st then abortOnce ctx st else st) = abortOnce ctx st.
Proof.
  destruct (Z.ltb_spec 0 (remaining st)); [reflexivity|].
  unfold abortOnce. destruct (ended st); [reflexivity|].
  destruct (Z.leb_spec (remaining st) 0); [reflexivity | lia].
Qed.

(** *** Flow control *)

Lemma writeLoop_flow (fuel : nat) (st st' : dl_state) (b : bool) :
  writeLoop ctx fuel st = Some (st', b) ->
  flow_ok (trace st) = true ->
  saturated (trace st) = false ->
  drainListeners st = O ->
  flow_ok (trace st') = true
  /\ if b
     then saturated (trace st') = false /\ drainListeners st' = O
          /\ remaining st' <= 0
     else saturated (trace st') = true /\ drainListeners st' = 1%nat.
Proof.
  revert st. induction fuel as [|fuel IH]; intros st; simpl; [discriminate|].
  destruct (Z.ltb_spec 0 (remaining st)) as [Hr|Hr].
  - destruct (res_write ctx _) eqn:Hw; intros H Hf Hs Hl.
    + apply IH in H; simpl; auto. rewrite Hs, Hf. reflexivity.
    + inversion H; subst; clear H. simpl. rewrite Hs, Hf, Hl. auto.
  - intros H Hf Hs Hl. inversion H; subst. auto.
Qed.

Lemma writeMore_flow (fuel : nat) (now : Z) (st st' : dl_state) :
  writeMore ctx fuel now st = Some st' ->
  flow_ok (trace st) = true ->
  saturated (trace st) = false ->
  drainListeners st = O ->
  regulated st' /\ quiescent st'.
Proof.
  unfold writeMore, regulated, quiescent. destruct (ended st) eqn:E.
  - intros H Hf Hs Hl. inversion H; subst. rewrite Hs. auto.
  - destruct (writeLoop ctx fuel st) as [[st1 [|]]|] eqn:L; try discriminate;
      intros H Hf Hs Hl; inversion H; subst; clear H;
      destruct (writeLoop_frame _ _ _ _ L) as (He & _);
      destruct (writeLoop_flow _ _ _ _ L Hf Hs Hl) as (Hf1 & Hb).
    + destruct Hb as (Hs1 & Hl1 & _).
      unfold endOnce, res_end. simpl. rewrite He, E. simpl.
      rewrite Hs1. auto.
    + destruct Hb as (Hs1 & Hl1). rewrite Hs1. auto.
Qed.

Lemma endOnce_trace (now : Z) (st : dl_state) :
  trace (endOnce ctx now st) = trace st
  /\ drainListeners (endOnce ctx now st) = drainListeners st
  /\ remaining (endOnce ctx now st) = remaining st
  /\ (ended st = true -> ended (endOnce ctx now st) = true).
Proof. unfold endOnce. destruct (ended st) eqn:E; simpl; auto. Qed.

Lemma abortOnce_trace (st : dl_state) :
  trace (abortOnce ctx st) = trace st
  /\ drainListeners (abortOnce ctx st) = drainListeners st
  /\ remaining (abortOnce ctx st) = remaining st
  /\ (ended st = true -> ended (abortOnce ctx st) = true).
Proof.
  unfold abortOnce. destruct (ended st) eqn:E; simpl; auto.
  destruct ((remaining st <=? 0) || writableEnded st); simpl; auto.
  repeat split; discriminate.
Qed.

(** No listener but the [drain] listener writes. *)
Lemma dl_handle_silent (fuel : nat) (now : Z) (e : dl_event)
      (st st' : dl_state) :
  e <> EvDrain ->
  dl_handle ctx fuel now e st = Some st' ->
  trace st' = trace st /\ drainListeners st' = drainListeners st
  /\ remaining st' = remaining st
  /\ (ended st = true -> ended st' = true).
Proof.
  destruct e; simpl; intros Hne H; try congruence;
    inversion H; subst; clear H.
  - apply endOnce_trace.
  - apply abortOnce_trace.
  - rewrite close_is_abortOnce. apply abortOnce_trace.
  - apply (abortOnce_trace (dl_logger (DlError err) st)).
Qed.

Lemma dl_handle_flow (fuel : nat) (now : Z) (e : dl_event)
      (st st' : dl_state) :
  dl_handle ctx fuel now e st = Some st' ->
  regulated st /\ quiescent st -> regulated st' /\ quiescent st'.
Proof.
  intros H [[Hf Hl] Hq].
  assert (Hd : e = EvDrain \/ e <> EvDrain)
    by (destruct e; auto; right; discriminate).
  destruct Hd as [-> | Hne].
  - simpl in H. rewrite Hl in H.
    destruct (saturated (trace st)) eqn:Hs; simpl in H.
    + destruct (writeMore ctx fuel now _) as [st1|] eqn:W; [|discriminate].
      inversion H; subst; clear H.
      apply writeMore_flow in W; simpl; auto.
      rewrite Hs, Hf. reflexivity.
    + inversion H; subst; clear H. unfold regulated, quiescent. simpl.
      rewrite Hs. destruct Hq as [Hq|Hq]; [auto | congruence].
  - destruct (dl_handle_silent _ _ _ _ _ Hne H) as (Ht & Hl' & _ & He).
    unfold regulated, quiescent. rewrite Ht, Hl'.
    destruct Hq; auto.
Qed.

(** *** Byte accounting *)

Lemma sumZ_app (l1 l2 : list Z) : sumZ (l1 ++ l2) = sumZ l1 + sumZ l2.
Proof. induction l1 as [|c l1 IH]; simpl; lia. Qed.

Lemma chunked_snoc (rem : Z) (cs : list Z) (c : Z) :
  chunked rem cs -> 0 < rem - sumZ cs -> c = Z.min CHUNK (rem - sumZ cs) ->
  chunked rem (cs ++ [c]).
Proof.
  revert rem. induction cs as [|c0 cs IH]; intros rem; simpl.
  - intros _ Hr Hc. rewrite Z.sub_0_r in *. auto.
  - intros (Hr & Hc0 & Hcs) Hrem Hc. repeat split; auto.
    apply IH; auto; [lia | rewrite Hc; f_equal; lia].
Qed.

Lemma chunks_wrote (len : Z) (ok : bool) (st : dl_state) :
  chunks (dl_emit (Wrote len ok) st) = chunks st ++ [len].
Proof. unfold chunks. simpl. rewrite flat_map_app. reflexivity. Qed.

Lemma chunks_resumed (st : dl_state) :
  chunks (dl_emit Resumed st) = chunks st.
Proof.
  unfold chunks. simpl. rewrite flat_map_app. simpl. apply app_nil_r.
Qed.

Hypothesis total_safe : total ctx <= MAX_SAFE_INTEGER.

Lemma writeLoop_accounted (fuel : nat) (st : dl_state) :
  accounted ctx st ->
  remaining st <= CHUNK * (Z.of_nat fuel - 1) ->
  exists st' b,
    writeLoop ctx fuel st = Some (st', b)
    /\ accounted ctx st'
    /\ (b = true -> remaining st' = 0).
Proof.
  revert st.
  induction fuel as [|fuel IH]; intros st (Hr & Hc & Hsum & Hpos & Hcl) Hf.
  - unfold CHUNK in Hf. lia.
  - simpl. destruct (Z.ltb_spec 0 (remaining st)) as [Hgt|Hle].
    + set (len := Z.min CHUNK (remaining st)).
      assert (Hlen : 0 < len <= remaining st) by (unfold len, CHUNK; lia).
      assert (Hsub : num_sub (remaining st) len = remaining st - len)
        by (apply num_sub_exact; lia).
      rewrite Hsub.
      set (ok := res_write ctx _).
      set (st1 := dl_emit (Wrote len ok) (set_remaining _ st)).
      assert (A1 : accounted ctx st1).
      { unfold accounted, st1. rewrite chunks_wrote. simpl remaining.
        change (chunks (set_remaining (remaining st - len) st))
          with (chunks st).
        rewrite sumZ_app. simpl. repeat split; try lia; [|exact Hcl].
        apply chunked_snoc; auto; [lia|]. unfold len. f_equal. lia. }
      destruct ok.
      * apply IH; [exact A1|]. unfold st1. simpl remaining.
        unfold len, CHUNK in *. lia.
      * eexists _, false. split; [reflexivity|]. split; [exact A1|].
        discriminate.
    + exists st, true. split; [reflexivity|].
      split; [repeat split; assumption | intros _; lia].
Qed.

Lemma accounted_frame (st st' : dl_state) :
  remaining st' = remaining st -> trace st' = trace st ->
  contentLength st' = contentLength st ->
  accounted ctx st -> accounted ctx st'.
Proof.
  unfold accounted, chunks. intros -> -> ->. auto.
Qed.

Lemma writeMore_streaming (fuel : nat) (now : Z) (st : dl_state) :
  streaming ctx fuel st ->
  exists st', writeMore ctx fuel now st = Some st' /\ streaming ctx fuel st'.
Proof.
  intros (A & Hw & Hf). unfold writeMore.
  destruct (ended st) eqn:E.
  - exists st. split; [reflexivity | exact (conj A (conj Hw Hf))].
  - destruct (writeLoop_accounted fuel st A) as (st1 & b & L & A1 & Hb).
    { destruct A as (? & _ & ? & ? & _). lia. }
    rewrite L. destruct (writeLoop_frame _ _ _ _ L) as (He & Hwe & _ & _).
    destruct b.
    + eexists. split; [reflexivity|]. unfold streaming.
      split; [|split; [|exact Hf]].
      * eapply accounted_frame; [| | |exact A1];
          unfold endOnce, res_end; simpl; rewrite He, E; reflexivity.
      * intros _. unfold endOnce, res_end. simpl. rewrite He, E. simpl.
        auto.
    + exists st1. split; [reflexivity|]. unfold streaming.
      rewrite Hwe. split; [exact A1|]. split; [|exact Hf].
      intros Hx. specialize (Hw Hx).
      (* the loop is not entered when nothing remains *)
      destruct fuel as [|fuel]; simpl in L; [discriminate|].
      rewrite Hw in L. simpl in L. discriminate.
Qed.

Lemma fireDrain_streaming (fuel : nat) (now : Z) (n : nat) (st : dl_state) :
  streaming ctx fuel st ->
  exists st', fireDrain ctx fuel now n st = Some st' /\ streaming ctx fuel st'.
Proof.
  revert st. induction n as [|n IH]; intros st S; simpl.
  - exists st. auto.
  - destruct (writeMore_streaming fuel now (dl_emit Resumed st))
      as (st1 & W & S1).
    { destruct S as (A & Hw & Hf). repeat split; auto.
      - apply A.
      - rewrite chunks_resumed. apply A.
      - rewrite chunks_resumed. apply A.
      - rewrite chunks_resumed. apply A.
      - apply A. }
    rewrite W. apply IH, S1.
Qed.

Lemma streaming_frame (fuel : nat) (st st' : dl_state) :
  remaining st' = remaining st -> trace st' = trace st ->
  contentLength st' = contentLength st ->
  writableEnded st' = writableEnded st ->
  streaming ctx fuel st -> streaming ctx fuel st'.
Proof.
  intros Hr Ht Hc Hw (A & Hwe & Hf). unfold streaming.
  rewrite Hw, Hr. split; [|split; assumption].
  eapply accounted_frame; eauto.
Qed.

Lemma endOnce_frame (now : Z) (st : dl_state) :
  writableEnded (endOnce ctx now st) = writableEnded st
  /\ contentLength (endOnce ctx now st) = contentLength st.
Proof. unfold endOnce. destruct (ended st); simpl; auto. Qed.

Lemma abortOnce_frame (st : dl_state) :
  writableEnded (abortOnce ctx st) = writableEnded st
  /\ contentLength (abortOnce ctx st) = contentLength st.
Proof.
  unfold abortOnce. destruct (ended st); simpl; auto.
  destruct ((remaining st <=? 0) || writableEnded st); simpl; auto.
Qed.

Lemma dl_handle_streaming (fuel : nat) (now : Z) (e : dl_event)
      (st : dl_state) :
  streaming ctx fuel st ->
  exists st', dl_handle ctx fuel now e st = Some st' /\ streaming ctx fuel st'.
Proof.
  intros S. destruct e; simpl.
  - eexists. split; [reflexivity|].
    destruct (endOnce_trace now st) as (? & _ & ? & _).
    destruct (endOnce_frame now st).
    eapply streaming_frame; eauto.
  - eexists. split; [reflexivity|].
    destruct (abortOnce_trace st) as (? & _ & ? & _).
    destruct (abortOnce_frame st).
    eapply streaming_frame; eauto.
  - eexists. split; [reflexivity|]. rewrite close_is_abortOnce.
    destruct (abortOnce_trace st) as (? & _ & ? & _).
    destruct (abortOnce_frame st).
    eapply streaming_frame; eauto.
  - eexists. split; [reflexivity|].
    destruct (abortOnce_trace (dl_logger (DlError err) st)) as (? & _ & ? & _).
    destruct (abortOnce_frame (dl_logger (DlError err) st)).
    eapply streaming_frame; eauto.
  - apply fireDrain_streaming.
    eapply streaming_frame; [| | | |exact S]; reflexivity.
Qed.

Lemma dl_run_streaming (fuel : nat) (evs : list (Z * dl_event))
      (st : dl_state) :
  streaming ctx fuel st ->
  exists st', dl_run ctx fuel evs st = Some st' /\ streaming ctx fuel st'.
Proof.
  revert st. induction evs as [|[now e] evs IH]; intros st S; simpl.
  - exists st. auto.
  - destruct (dl_handle_streaming fuel now e st S) as (st1 & H & S1).
    rewrite H. apply IH, S1.
Qed.

End Download.

(** *** The trace, oldest first *)

Lemma flow_ok_app (t1 t2 : list io) :
  flow_ok (t1 ++ t2) = true -> flow_ok t2 = true.
Proof.
  induction t1 as [|a t1 IH]; simpl; [auto|].
  intros H. apply andb_true_iff in H as [_ H]. auto.
Qed.

Lemma history_saturated (t : list io) :
  flow_ok t = true ->
  forall before len after,
    rev t = before ++ Wrote len false :: after ->
    after = [] \/ exists after', after = Resumed :: after'.
Proof.
  intros Hf before len [|x after'] H; [left; reflexivity | right].
  apply (f_equal (@rev io)) in H. rewrite rev_involutive in H.
  rewrite rev_app_distr in H. simpl in H. rewrite <- !app_assoc in H.
  simpl in H. rewrite H in Hf. apply flow_ok_app in Hf. simpl in Hf.
  destruct x; [discriminate|]. eauto.
Qed.

Lemma history_resumed (t : list io) :
  flow_ok t = true ->
  forall before after,
    rev t = before ++ Resumed :: after ->
    exists before' len, before = before' ++ [Wrote len false].
Proof.
  intros Hf before after H.
  apply (f_equal (@rev io)) in H. rewrite rev_involutive in H.
  rewrite rev_app_distr in H. simpl in H. rewrite <- !app_assoc in H.
  simpl in H. rewrite H in Hf. apply flow_ok_app in Hf. simpl in Hf.
  apply andb_true_iff in Hf as [Hs _].
  destruct (rev before) as [|[len [|]|] t'] eqn:E; try discriminate.
  exists (rev t'), len.
  rewrite <- (rev_involutive before), E. reflexivity.
Qed.

(** *** Sessions *)

Section Sessions.

Variable env : environment.
Variable fuel : nat.
Variable rq : dl_request.

Let cfg := register env.
Let ctx := dl_context cfg rq.

Lemma download_app (evs1 evs2 : list (Z * dl_event)) :
  download cfg fuel rq (evs1 ++ evs2)
  = match download cfg fuel rq evs1 with
    | Some st => dl_run ctx fuel evs2 st
    | None => None
    end.
Proof.
  unfold download. fold ctx.
  destruct (writeMore ctx fuel (sync_end rq) (dl_init cfg rq)); auto.
  apply dl_run_app.
Qed.

(** What holds between the handlers of every session. *)
Lemma download_reach (evs : list (Z * dl_event)) (st : dl_state) :
  download cfg fuel rq evs = Some st ->
  terminal st /\ regulated st /\ quiescent st.
Proof.
  unfold download. fold ctx.
  destruct (writeMore ctx fuel (sync_end rq) (dl_init cfg rq)) as [st0|] eqn:W;
    [|discriminate].
  intros H. split.
  - apply (dl_run_invariant ctx terminal fuel
             (dl_handle_terminal ctx fuel) evs st0 st H).
    apply (writeMore_terminal _ _ _ _ _ W).
    split; [reflexivity | split; [discriminate | left; reflexivity]].
  - apply (dl_run_invariant ctx (fun s => regulated s /\ quiescent s) fuel
             (dl_handle_flow ctx fuel) evs st0 st H).
    apply (writeMore_flow _ _ _ _ _ W); reflexivity.
Qed.

Hypothesis maximum_safe : MAX_DOWNLOAD cfg <= MAX_SAFE_INTEGER.
Hypothesis enough_fuel : MAX_DOWNLOAD cfg / CHUNK + 1 < Z.of_nat fuel.

(** Within the range of exact integers every session runs, and its bytes
    are accounted for. *)
Lemma download_total (evs : list (Z * dl_event)) :
  exists st,
    download cfg fuel rq evs = Some st /\ streaming ctx fuel st.
Proof.
  destruct (resolveDownloadSize_bounds env (query_size rq)) as [Hlo Hhi].
  fold cfg in Hlo, Hhi.
  assert (Hsafe : total ctx <= MAX_SAFE_INTEGER) by (simpl; lia).
  assert (S0 : streaming ctx fuel (dl_init cfg rq)).
  { split; [|split; [discriminate|]].
    - repeat split; simpl; lia.
    - change (total ctx) with (resolveDownloadSize cfg (query_size rq)).
      pose proof (Z.div_mod (MAX_DOWNLOAD cfg) CHUNK ltac:(discriminate)).
      pose proof (Z.mod_pos_bound (MAX_DOWNLOAD cfg) CHUNK ltac:(reflexivity)).
      unfold CHUNK in *. lia. }
  unfold download. fold ctx.
  destruct (writeMore_streaming ctx Hsafe fuel (sync_end rq) _ S0)
    as (st0 & W & S1).
  rewrite W. apply (dl_run_streaming ctx Hsafe fuel evs st0 S1).
Qed.

End Sessions.





Example download_200000 :
  let rq := mkDlReq (Some (js "200000")) "id" 1000 1001
                    (fun n => negb (Nat.eqb n 1)) in
  option_map (fun st => (chunks st, writableEnded st, rev (dl_log st)))
             (download (register env_empty) 1700 rq [(1007, EvDrain)])
  = Some ([65536; 65536; 65536; 3392], true,
          [DlStart "id" (js "200000") 200000; DlEnd "id" 200000 7]).
Proof. vm_compute. reflexivity. Qed.

Example download_size_zero :
  let rq := mkDlReq (Some (js "0")) "id" 0 90 (fun _ => true) in
  option_map (fun st => (contentLength st, sumZ (chunks st)))
             (download (register env_empty) 1700 rq [])
  = Some (Some 10485760, 10485760).
Proof. vm_compute. reflexivity. Qed.

(** C8: a chunk that the consumer answers with [false] is followed by no
    other chunk until the [drain] listener resumes the loop, and the
    listener resumes it only after such a chunk; exactly one listener is
    registered while the session waits; between handlers a session that is
    not over is waiting on a saturated write, so the loop never yields
    after a chunk that was accepted; no other event writes. *)
Theorem backpressure_respected
        (env : environment) (fuel : nat) (rq : dl_request)
        (evs : list (Z * dl_event)) (st : dl_state) :
  let cfg := register env in
  download cfg fuel rq evs = Some st ->
  let history := rev (trace st) in
  (forall before len after,
      history = before ++ Wrote len false :: after ->
      after = [] \/ exists after', after = Resumed :: after')
  /\ (forall before after,
         history = before ++ Resumed :: after ->
         exists before' len, before = before' ++ [Wrote len false])
  /\ drainListeners st = (if saturated (trace st) then 1 else 0)%nat
  /\ (ended st = true \/ saturated (trace st) = true)
  /\ (forall now e st',
         e <> EvDrain ->
         dl_handle (dl_context cfg rq) fuel now e st = Some st' ->
         trace st' = trace st).
Proof.
  intros cfg H history.
  destruct (download_reach env fuel rq evs st H) as (_ & (Hf & Hl) & Hq).
  split; [|split; [|split; [|split]]].
  - apply history_saturated, Hf.
  - apply history_resumed, Hf.
  - exact Hl.
  - exact Hq.
  - intros now e st' Hne Hh.
    apply (dl_handle_silent _ _ _ _ _ _ Hne Hh).
Qed.

Lemma backpressure_respected_witness :
  let cfg := register env_empty in
  let rq := mkDlReq (Some (js "200000")) "id" 1000 1001
                    (fun n => negb (Nat.eqb n 1)) in
  exists st,
    download cfg 1700 rq [(1005, EvFinish)] = Some st
    /\ rev (trace st) = [Wrote 65536 true; Wrote 65536 false]
    /\ drainListeners st = 1%nat
    /\ (ended st = true \/ saturated (trace st) = true).
Proof.
  eexists. split; [reflexivity|]. split; [reflexivity|].
  pose proof (backpressure_respected
                env_empty 1700
                (mkDlReq (Some (js "200000")) "id" 1000 1001
                         (fun n => negb (Nat.eqb n 1)))
                [(1005, EvFinish)] _ eq_refl) as H.
  exact (conj (proj1 (proj2 (proj2 H))) (proj1 (proj2 (proj2 (proj2 H))))).
Defined.

(** C9: once every chunk has been generated or the response has been
    ended, [aborted], [close] and [error] leave the guard as it is and log
    no abort; the session has no abort line, and the finish that follows
    leaves it with its one end line. *)
Theorem late_abort_suppressed
        (env : environment) (fuel : nat) (rq : dl_request)
        (evs : list (Z * dl_event)) (st : dl_state)
        (now : Z) (e : dl_event) (later : Z) :
  let cfg := register env in
  download cfg fuel rq evs = Some st ->
  remaining st <= 0 \/ writableEnded st = true ->
  abort_route e = true ->
  exists st' st'',
    download cfg fuel rq (evs ++ [(now, e)]) = Some st'
    /\ ended st' = ended st
    /\ aborts st' = 0%nat
    /\ ends st' = ends st
    /\ download cfg fuel rq (evs ++ [(now, e); (later, EvFinish)]) = Some st''
    /\ ended st'' = true
    /\ aborts st'' = 0%nat
    /\ ends st'' = 1%nat.
Proof.
  intros cfg H Hlate He.
  destruct (download_reach env fuel rq evs st H) as ((Hc & Hw & Ha) & _).
  assert (Ha0 : aborts st = 0%nat).
  { destruct Ha as [Ha|[Hr Hwf]]; [exact Ha|].
    destruct Hlate; [lia | congruence]. }
  assert (Hab : forall s, ended s = ended st -> remaining s = remaining st ->
                          writableEnded s = writableEnded st ->
                          abortOnce (dl_context cfg rq) s = s).
  { intros s Hes Hrs Hws. unfold abortOnce. rewrite Hrs, Hws.
    destruct (ended s); [reflexivity|].
    destruct Hlate as [Hr | Hwe].
    - destruct (Z.leb_spec (remaining st) 0); [reflexivity | lia].
    - rewrite Hwe, orb_true_r. reflexivity. }
  set (st' := match e with
              | EvError err => dl_logger (DlError err) st
              | _ => st
              end).
  assert (Hst' : dl_handle (dl_context cfg rq) fuel now e st = Some st').
  { unfold st'. destruct e; try discriminate; simpl.
    - rewrite Hab; reflexivity.
    - rewrite close_is_abortOnce, Hab; reflexivity.
    - rewrite Hab; reflexivity. }
  assert (Hsame : ended st' = ended st /\ aborts st' = aborts st
                  /\ ends st' = ends st).
  { unfold st'. destruct e; auto. }
  destruct Hsame as (He' & Ha' & Hn').
  exists st', (endOnce (dl_context cfg rq) later st').
  unfold cfg in *. rewrite !download_app, H. simpl. rewrite Hst'.
  repeat split; try congruence.
  - unfold endOnce. destruct (ended st') eqn:E; [exact E | reflexivity].
  - unfold endOnce, aborts in *. destruct (ended st'); simpl; congruence.
  - unfold endOnce. rewrite He'. unfold ends, aborts in *.
    destruct (ended st); simpl; lia.
Qed.

Lemma late_abort_suppressed_witness :
  let cfg := register env_empty in
  let rq := mkDlReq (Some (js "65536")) "id" 1000 1001 (fun _ => false) in
  exists st' st'',
    download cfg 1700 rq [(1005, EvAborted)] = Some st'
    /\ ended st' = false
    /\ aborts st' = 0%nat
    /\ ends st' = 0%nat
    /\ download cfg 1700 rq [(1005, EvAborted); (1009, EvFinish)] = Some st''
    /\ ended st'' = true
    /\ aborts st'' = 0%nat
    /\ ends st'' = 1%nat.
Proof.
  exact (late_abort_suppressed
           env_empty 1700
           (mkDlReq (Some (js "65536")) "id" 1000 1001 (fun _ => false))
           [] _ 1005 EvAborted 1009
           eq_refl ltac:(left; vm_compute; discriminate) eq_refl).
Defined.

(** ** [parseInt] on sample inputs *)

Example parse_12abc : parseInt10 (js "12abc") = Fin 12.
Proof. reflexivity. Qed.

Example parse_signed : parseInt10 (js "  -42xyz") = Fin (-42).
Proof. reflexivity. Qed.

Example parse_letters : parseInt10 (js "abc") = NaN.
Proof. reflexivity. Qed.

Example parse_empty : parseInt10 [] = NaN.
Proof. reflexivity. Qed.

Example parse_above_2p53 :
  parseInt10 (js "9007199254740993") = Fin 9007199254740992
  /\ parseInt10 (js "9007199254740995") = Fin 9007199254740996.
Proof. vm_compute. split; reflexivity. Qed.

(* ================================================================= *)
(** * Further properties *)

(** ** Signs and white space in sizes *)

Lemma round_double_pos_nonneg (n : Z) : 0 <= n -> 0 <= round_double_pos n.
Proof.
  intros Hn. unfold round_double_pos.
  destruct (Z.leb_spec (Z.log2 n - 52) 0) as [|He]; [exact Hn|].
  assert (Hp : 0 < 2 ^ (Z.log2 n - 52)) by (apply Z.pow_pos_nonneg; lia).
  assert (Hq : 0 <= n / 2 ^ (Z.log2 n - 52)) by (apply Z.div_pos; lia).
  apply Z.mul_nonneg_nonneg; [|lia].
  destruct (_ || _); lia.
Qed.

Lemma round_double_nonneg (z : Z) : 0 <= z -> 0 <= round_double z.
Proof.
  intros Hz. unfold round_double.
  apply Z.mul_nonneg_nonneg;
    [apply Z.sgn_nonneg, Hz
    | apply round_double_pos_nonneg, Z.abs_nonneg].
Qed.

Lemma round_double_nonpos (z : Z) : z <= 0 -> round_double z <= 0.
Proof.
  intros Hz. unfold round_double.
  apply Z.mul_nonpos_nonneg;
    [apply Z.sgn_nonpos, Hz
    | apply round_double_pos_nonneg, Z.abs_nonneg].
Qed.

Lemma digitPrefix_digits (s : jsstring) :
  forallb isDigit (digitPrefix s) = true.
Proof.
  induction s as [|c s IH]; simpl; [reflexivity|].
  destruct (isDigit c) eqn:E; simpl; [rewrite E, IH|]; reflexivity.
Qed.

Lemma digits_nonneg (ds : jsstring) (acc : Z) :
  forallb isDigit ds = true -> 0 <= acc ->
  0 <= fold_left (fun acc c => 10 * acc + digitValue c) ds acc.
Proof.
  revert acc. induction ds as [|c ds IH]; intros acc H Ha; cbn [fold_left];
    [exact Ha|].
  simpl in H. apply andb_true_iff in H as [Hc Hds].
  apply IH; [exact Hds|]. apply isDigit_bounds in Hc.
  unfold digitValue. lia.
Qed.

Lemma mathInt_nonneg (ds : jsstring) :
  forallb isDigit ds = true -> 0 <= mathInt ds.
Proof. intros H. apply digits_nonneg; [exact H | lia]. Qed.

Lemma trimStart_white (ws s : jsstring) :
  forallb isWhiteSpace ws = true -> trimStart (ws ++ s) = trimStart s.
Proof.
  induction ws as [|c ws IH]; simpl; [reflexivity|].
  intros H. apply andb_true_iff in H as [Hc Hws]. rewrite Hc. auto.
Qed.

Lemma parseInt10_white (ws s : jsstring) :
  forallb isWhiteSpace ws = true -> parseInt10 (ws ++ s) = parseInt10 s.
Proof.
  intros H. unfold parseInt10. rewrite (trimStart_white ws s H). reflexivity.
Qed.

(** What [parseInt] reads behind a minus sign is never positive. *)
Lemma parseInt10_minus (s : jsstring) :
  match parseInt10 (45%N :: s) with
  | Fin v => v <= 0
  | _ => True
  end.
Proof.
  unfold parseInt10. simpl trimStart. cbv iota. simpl N.eqb. cbv iota.
  pose proof (digitPrefix_digits s) as Hd.
  destruct (digitPrefix s) as [|c ds] eqn:E; [exact I|].
  pose proof (mathInt_nonneg (c :: ds) Hd) as Hm.
  unfold toNumber.
  destruct (2 ^ 1024 <=? _); [exact I|].
  apply round_double_nonpos. lia.
Qed.

(** X1: a value that starts, after any white space, with a minus sign is
    never accepted: [envInt] gives the fallback and the download is sized as
    if no size had been asked for. *)
Theorem minus_sign_never_accepted
        (cfg : config) (env : environment) (name : string) (fallback : Z)
        (ws s : jsstring) :
  forallb isWhiteSpace ws = true ->
  env name = Some (ws ++ 45%N :: s) ->
  envInt env name fallback = fallback
  /\ resolveDownloadSize cfg (Some (ws ++ 45%N :: s))
     = resolveDownloadSize cfg None.
Proof.
  intros Hws Henv. pose proof (parseInt10_minus s) as Hm. split.
  - unfold envInt. rewrite Henv.
    destruct (ws ++ 45%N :: s) as [|c l] eqn:E;
      [destruct ws; discriminate|].
    rewrite <- E, (parseInt10_white ws _ Hws).
    destruct (parseInt10 (45%N :: s)) as [| |v]; try reflexivity.
    destruct (Z.ltb_spec 0 v); [lia | reflexivity].
  - unfold resolveDownloadSize. simpl qSize.
    rewrite (parseInt10_white ws _ Hws).
    change (parseInt10 []) with NaN.
    destruct (parseInt10 (45%N :: s)) as [| |v]; try reflexivity.
    destruct (Z.leb_spec v 0); [reflexivity | lia].
Qed.

Lemma minus_sign_never_accepted_witness :
  envInt (env_of [("MAX_UPLOAD", " -5")%string]) "MAX_UPLOAD" 104857600
  = 104857600
  /\ resolveDownloadSize (register env_empty) (Some (js " -5"))
     = resolveDownloadSize (register env_empty) None.
Proof.
  exact (minus_sign_never_accepted
           (register env_empty) (env_of [("MAX_UPLOAD", " -5")%string])
           "MAX_UPLOAD" 104857600 (js " ") (js "5") eq_refl eq_refl).
Defined.

(** X2: white space before a size changes nothing, in the environment and
    in the query parameter. *)
Theorem leading_white_space_ignored
        (cfg : config) (env env' : environment) (name : string)
        (fallback : Z) (ws s : jsstring) :
  forallb isWhiteSpace ws = true ->
  env name = Some (ws ++ s) ->
  env' name = Some s ->
  envInt env name fallback = envInt env' name fallback
  /\ resolveDownloadSize cfg (Some (ws ++ s))
     = resolveDownloadSize cfg (Some s).
Proof.
  intros Hws Henv Henv'. split.
  - unfold envInt. rewrite Henv, Henv'.
    destruct s as [|c s'].
    + rewrite app_nil_r. destruct ws as [|w ws']; [reflexivity|].
      rewrite <- (app_nil_r (w :: ws')), (parseInt10_white _ [] Hws).
      reflexivity.
    + destruct (ws ++ c :: s') as [|d l] eqn:E;
        [destruct ws; discriminate|].
      rewrite <- E, (parseInt10_white ws _ Hws). reflexivity.
  - unfold resolveDownloadSize. simpl qSize.
    rewrite (parseInt10_white ws s Hws). reflexivity.
Qed.

Lemma leading_white_space_ignored_witness :
  envInt (env_of [("DEFAULT_SIZE", "  4096")%string]) "DEFAULT_SIZE" 10485760
  = envInt (env_of [("DEFAULT_SIZE", "4096")%string]) "DEFAULT_SIZE" 10485760
  /\ resolveDownloadSize (register env_empty) (Some (js "  4096"))
     = resolveDownloadSize (register env_empty) (Some (js "4096")).
Proof.
  exact (leading_white_space_ignored
           (register env_empty)
           (env_of [("DEFAULT_SIZE", "  4096")%string])
           (env_of [("DEFAULT_SIZE", "4096")%string])
           "DEFAULT_SIZE" 10485760 (js "  ") (js "4096")
           eq_refl eq_refl eq_refl).
Defined.

Lemma envInt_origin (env : environment) (name : string) (fallback : Z) :
  envInt env name fallback = fallback
  \/ exists raw,
      env name = Some raw
      /\ parseInt10 raw = Fin (envInt env name fallback).
Proof.
  unfold envInt. destruct (env name) as [[|c raw]|]; auto.
  destruct (parseInt10 (c :: raw)) as [| |n] eqn:E; auto.
  destruct (0 <? n); auto. right. exists (c :: raw). auto.
Qed.

(** X3: in every environment the three limits are at least 1, and each is
    its built-in value or the number [parseInt] reads in its variable. *)
Theorem limits_from_environment (env : environment) :
  let cfg := register env in
  (1 <= DEFAULT_SIZE cfg /\ 1 <= MAX_DOWNLOAD cfg /\ 1 <= MAX_UPLOAD cfg)
  /\ (DEFAULT_SIZE cfg = 10485760
      \/ exists raw, env "DEFAULT_SIZE"%string = Some raw
                     /\ parseInt10 raw = Fin (DEFAULT_SIZE cfg))
  /\ (MAX_DOWNLOAD cfg = 104857600
      \/ exists raw, env "MAX_DOWNLOAD"%string = Some raw
                     /\ parseInt10 raw = Fin (MAX_DOWNLOAD cfg))
  /\ (MAX_UPLOAD cfg = 104857600
      \/ exists raw, env "MAX_UPLOAD"%string = Some raw
                     /\ parseInt10 raw = Fin (MAX_UPLOAD cfg)).
Proof.
  intros cfg. destruct (register_pos env) as (Hd & Hm & Hu).
  fold cfg in Hd, Hm, Hu.
  split; [lia|]. repeat split; apply envInt_origin.
Qed.

(** ** The generator after its guard is closed *)

Section Closed.

Variable ctx : dl_ctx.
Variable fuel : nat.

Lemma frozen_refl (st : dl_state) : ended st = true -> frozen st st.
Proof. intros H. repeat split; auto. Qed.

Lemma frozen_trans (st1 st2 st3 : dl_state) :
  frozen st1 st2 -> frozen st2 st3 -> frozen st1 st3.
Proof.
  intros (_ & Hr & Hw & Hc & He & Ha & Hl) (E & Hr' & Hw' & Hc' & He' & Ha' & Hl').
  unfold frozen. repeat (split; [congruence|]).
  intros H0. destruct (Hl H0) as [Ht H1]. destruct (Hl' H1).
  split; congruence.
Qed.

Lemma fireDrain_closed (now : Z) (n : nat) (st : dl_state) :
  ended st = true ->
  exists st',
    fireDrain ctx fuel now n st = Some st'
    /\ ended st' = true /\ remaining st' = remaining st
    /\ writableEnded st' = writableEnded st /\ chunks st' = chunks st
    /\ dl_log st' = dl_log st /\ drainListeners st' = drainListeners st
    /\ (n = O -> trace st' = trace st).
Proof.
  revert st. induction n as [|n IH]; intros st E; simpl.
  - exists st. repeat split; auto.
  - unfold writeMore. simpl. rewrite E.
    destruct (IH (dl_emit Resumed st) E)
      as (st' & H & E' & Hr & Hw & Hc & Hl & Hd & _).
    exists st'. rewrite chunks_resumed in Hc.
    repeat split; auto. discriminate.
Qed.

Lemma dl_handle_closed (now : Z) (e : dl_event) (st : dl_state) :
  ended st = true ->
  exists st', dl_handle ctx fuel now e st = Some st' /\ frozen st st'.
Proof.
  intros E. destruct e; simpl.
  - exists st. unfold endOnce. rewrite E. split; [|apply frozen_refl]; auto.
  - exists st. unfold abortOnce. rewrite E. split; [|apply frozen_refl]; auto.
  - exists st. unfold abortOnce. rewrite E.
    destruct (0 <? remaining st); (split; [|apply frozen_refl]; auto).
  - eexists. unfold abortOnce. simpl. rewrite E. split; [reflexivity|].
    repeat split; auto.
  - destruct (fireDrain_closed now (drainListeners st)
                               (set_drainListeners O st) E)
      as (st' & H & E' & Hr & Hw & Hc & Hl & Hd & Ht).
    exists st'. split; [exact H|]. unfold frozen, ends, aborts.
    rewrite Hl. repeat split; auto.
Qed.

Lemma dl_run_closed (evs : list (Z * dl_event)) (st : dl_state) :
  ended st = true ->
  exists st', dl_run ctx fuel evs st = Some st' /\ frozen st st'.
Proof.
  revert st. induction evs as [|[now e] evs IH]; intros st E; simpl.
  - exists st. split; [reflexivity | apply frozen_refl, E].
  - destruct (dl_handle_closed now e st E) as (st1 & H & F). rewrite H.
    destruct (IH st1 (proj1 F)) as (st' & H' & F').
    exists st'. split; [exact H' | exact (frozen_trans _ _ _ F F')].
Qed.

(** *** Error lines *)

Lemma endOnce_errors (now : Z) (st : dl_state) :
  errors (endOnce ctx now st) = errors st.
Proof. unfold endOnce. destruct (ended st); reflexivity. Qed.

Lemma abortOnce_errors (st : dl_state) :
  errors (abortOnce ctx st) = errors st.
Proof.
  unfold abortOnce. destruct (ended st); [reflexivity|].
  destruct (_ || _); reflexivity.
Qed.

Lemma writeMore_errors (now : Z) (st st' : dl_state) :
  writeMore ctx fuel now st = Some st' -> errors st' = errors st.
Proof.
  unfold writeMore. destruct (ended st).
  - intros H; inversion H; reflexivity.
  - destruct (writeLoop ctx fuel st) as [[st1 [|]]|] eqn:L; try discriminate;
      intros H; inversion H; subst; clear H;
      destruct (writeLoop_frame _ _ _ _ _ L) as (_ & _ & Hl & _).
    + rewrite endOnce_errors. unfold errors, res_end. simpl. now rewrite Hl.
    + unfold errors. now rewrite Hl.
Qed.

Lemma fireDrain_errors (now : Z) (n : nat) (st st' : dl_state) :
  fireDrain ctx fuel now n st = Some st' -> errors st' = errors st.
Proof.
  revert st. induction n as [|n IH]; intros st; simpl.
  - intros H; inversion H; reflexivity.
  - destruct (writeMore ctx fuel now (dl_emit Resumed st)) as [st1|] eqn:W;
      [|discriminate].
    intros H. rewrite (IH _ H). apply (writeMore_errors _ _ _ W).
Qed.

Lemma dl_run_errors (evs : list (Z * dl_event)) (st st' : dl_state) :
  dl_run ctx fuel evs st = Some st' ->
  errors st' = (errors st + List.length (filter is_error_event evs))%nat.
Proof.
  revert st. induction evs as [|[now e] evs IH]; intros st; simpl.
  - intros H; inversion H; lia.
  - destruct (dl_handle ctx fuel now e st) as [st1|] eqn:Hh; [|discriminate].
    intros H. rewrite (IH _ H). unfold is_error_event at 2. simpl snd.
    destruct e; simpl in Hh; simpl;
      [| | | |rewrite (fireDrain_errors _ _ _ _ Hh); unfold errors; simpl; lia];
      inversion Hh; subst; clear Hh.
    + rewrite endOnce_errors. lia.
    + rewrite abortOnce_errors. lia.
    + destruct (0 <? remaining st); rewrite ?abortOnce_errors; lia.
    + rewrite abortOnce_errors. unfold errors. simpl. lia.
Qed.

(** *** A consumer that never saturates *)

Lemma writeLoop_accepting (n : nat) (st st' : dl_state) (b : bool) :
  (forall k, res_write ctx k = true) ->
  writeLoop ctx n st = Some (st', b) ->
  b = true /\ drainListeners st' = drainListeners st
  /\ (forallb accepted (trace st) = true ->
      forallb accepted (trace st') = true).
Proof.
  intros Hw. revert st. induction n as [|n IH]; intros st; simpl;
    [discriminate|].
  destruct (0 <? remaining st).
  - rewrite Hw. intros H. apply IH in H. simpl in H.
    destruct H as (Hb & Hd & Ha). auto.
  - intros H; inversion H; subst. auto.
Qed.

(** *** Progress of the loop *)

Lemma writeLoop_decreases (n : nat) (st st' : dl_state) (b : bool) :
  0 <= remaining st <= MAX_SAFE_INTEGER ->
  writeLoop ctx n st = Some (st', b) ->
  0 <= remaining st'
  /\ if 0 <? remaining st then remaining st' < remaining st
     else st' = st /\ b = true.
Proof.
  revert st. induction n as [|n IH]; intros st Hr; simpl; [discriminate|].
  destruct (Z.ltb_spec 0 (remaining st)) as [Hgt|Hle].
  - set (len := Z.min CHUNK (remaining st)).
    assert (Hlen : 0 < len <= remaining st) by (unfold len, CHUNK; lia).
    rewrite (num_sub_exact (remaining st) len) by lia.
    destruct (res_write ctx _).
    + intros H. apply IH in H; simpl remaining in *; [|lia].
      destruct H as [H0 H1]. split; [exact H0|].
      destruct (0 <? remaining st - len); [lia|].
      destruct H1 as [-> _]. simpl. lia.
    + intros H; inversion H; subst; clear H. simpl. lia.
  - intros H; inversion H; subst. split; [lia | auto].
Qed.

End Closed.

(** *** The shape of the chunks *)

Lemma chunked_bounds (cs : list Z) (rem : Z) :
  chunked rem cs -> Forall (fun c => 0 < c <= CHUNK) cs.
Proof.
  revert rem. induction cs as [|c cs IH]; intros rem; simpl;
    [constructor|].
  intros (Hr & Hc & Hcs). constructor; [|exact (IH _ Hcs)].
  unfold CHUNK in *. lia.
Qed.

Lemma full_chunks_step (rem : Z) :
  CHUNK <= rem -> full_chunks rem = CHUNK :: full_chunks (rem - CHUNK).
Proof.
  intros H. unfold full_chunks.
  assert (Hq : rem / CHUNK = (rem - CHUNK) / CHUNK + 1).
  { replace rem with ((rem - CHUNK) + 1 * CHUNK) at 1 by lia.
    apply Z.div_add. discriminate. }
  assert (Hm : rem mod CHUNK = (rem - CHUNK) mod CHUNK).
  { replace rem with ((rem - CHUNK) + 1 * CHUNK) at 1 by lia.
    apply Z.mod_add. discriminate. }
  rewrite Hq, Hm.
  assert (H0 : 0 <= (rem - CHUNK) / CHUNK)
    by (apply Z.div_pos; [lia | reflexivity]).
  rewrite Z2Nat.inj_add by lia. rewrite Nat.add_comm. reflexivity.
Qed.

Lemma chunked_full (cs : list Z) (rem : Z) :
  chunked rem cs -> sumZ cs = rem -> cs = full_chunks rem.
Proof.
  revert rem. induction cs as [|c cs IH]; intros rem; simpl.
  - intros _ <-. reflexivity.
  - intros (Hr & Hc & Hcs) Hsum.
    destruct (Z.lt_ge_cases rem CHUNK) as [Hlt|Hge].
    + assert (Hm : c = rem) by lia. clear Hc. subst c.
      destruct cs as [|c' cs']; [|simpl in Hcs; lia].
      unfold full_chunks.
      rewrite Z.div_small, Z.mod_small by lia.
      destruct (Z.eqb_spec rem 0); [lia | reflexivity].
    + assert (Hm : c = CHUNK) by lia. clear Hc. subst c.
      rewrite full_chunks_step by lia. f_equal.
      apply IH; [exact Hcs | lia].
Qed.

(** ** Download sessions *)

(** Runs a session and hands its final state, with the equation that says
    so, to the continuation. *)
Ltac run_session cfg fuel rq evs k :=
  let r := eval vm_compute in (download cfg fuel rq evs) in
  lazymatch r with
  | Some ?s =>
      let H := fresh "Hrun" in
      assert (H : download cfg fuel rq evs = Some s)
        by (vm_compute; reflexivity);
      k s H
  end.

(** X4: when the consumer accepts every chunk, the handler writes the
    whole body and ends the response before it returns; no [drain] listener
    is ever registered, the session has its end line and no abort line, and
    no later event changes that. *)
Theorem unsaturated_download_completes
        (env : environment) (fuel : nat) (rq : dl_request)
        (evs : list (Z * dl_event)) :
  let cfg := register env in
  let size := resolveDownloadSize cfg (query_size rq) in
  MAX_DOWNLOAD cfg <= MAX_SAFE_INTEGER ->
  MAX_DOWNLOAD cfg / CHUNK + 1 < Z.of_nat fuel ->
  (forall k, consumer rq k = true) ->
  exists st,
    download cfg fuel rq evs = Some st
    /\ writableEnded st = true
    /\ sumZ (chunks st) = size
    /\ forallb accepted (trace st) = true
    /\ drainListeners st = O
    /\ ends st = 1%nat
    /\ aborts st = O.
Proof.
  intros cfg size Hs Hf Hall.
  destruct (download_total env fuel rq Hs Hf []) as (st0 & H0 & S0).
  fold cfg in H0, S0. set (ctx := dl_context cfg rq) in *.
  assert (W : writeMore ctx fuel (sync_end rq) (dl_init cfg rq) = Some st0).
  { unfold download in H0. fold ctx in H0.
    destruct (writeMore ctx fuel (sync_end rq) (dl_init cfg rq));
      simpl in H0; congruence. }
  assert (F0 : writableEnded st0 = true /\ ended st0 = true
               /\ forallb accepted (trace st0) = true
               /\ drainListeners st0 = O
               /\ ends st0 = 1%nat /\ aborts st0 = O).
  { unfold writeMore in W. simpl ended in W. cbv iota in W.
    destruct (writeLoop ctx fuel (dl_init cfg rq)) as [[st1 b]|] eqn:L;
      [|discriminate].
    destruct (writeLoop_accepting ctx fuel _ _ _ Hall L) as (-> & Hd & Ha).
    destruct (writeLoop_frame ctx _ _ _ _ L) as (He & _ & Hl & _).
    inversion W; subst st0; clear W.
    unfold endOnce, res_end, ends, aborts. simpl. rewrite He. simpl.
    rewrite Hl, Hd. simpl. repeat split. apply Ha. reflexivity. }
  destruct F0 as (Fw & Fe & Fa & Fd & Fn & Fb).
  destruct (dl_run_closed ctx fuel evs st0 Fe)
    as (st & H & (_ & Hr & Hw & Hc & Hn & Hb & Ht)).
  destruct (Ht Fd) as [Htr Hdl].
  exists st. split.
  { unfold download. fold ctx. rewrite W. exact H. }
  destruct S0 as ((_ & _ & Hsum & _) & Hrem & _).
  specialize (Hrem Fw). change (total ctx) with size in Hsum.
  repeat split; try congruence.
  rewrite Hc. lia.
Qed.

Lemma unsaturated_download_completes_witness :
  let cfg := register env_empty in
  let rq := mkDlReq (Some (js "200000")) "id" 1000 1001 (fun _ => true) in
  exists st,
    download cfg 1700 rq [(1005, EvClose); (1006, EvDrain)] = Some st
    /\ writableEnded st = true
    /\ sumZ (chunks st) = 200000
    /\ forallb accepted (trace st) = true
    /\ drainListeners st = O
    /\ ends st = 1%nat
    /\ aborts st = O.
Proof.
  exact (unsaturated_download_completes
           env_empty 1700
           (mkDlReq (Some (js "200000")) "id" 1000 1001 (fun _ => true))
           [(1005, EvClose); (1006, EvDrain)]
           ltac:(vm_compute; discriminate) ltac:(vm_compute; reflexivity)
           (fun _ => eq_refl)).
Defined.

(** X5: no chunk is empty or longer than 64 KiB, and a download that ran
    to [res.end()] wrote full chunks followed by one shorter chunk when the
    size is not a multiple of 64 KiB. *)
Theorem chunks_are_full_then_rest
        (env : environment) (fuel : nat) (rq : dl_request)
        (evs : list (Z * dl_event)) (st : dl_state) :
  let cfg := register env in
  let size := resolveDownloadSize cfg (query_size rq) in
  MAX_DOWNLOAD cfg <= MAX_SAFE_INTEGER ->
  MAX_DOWNLOAD cfg / CHUNK + 1 < Z.of_nat fuel ->
  download cfg fuel rq evs = Some st ->
  Forall (fun c => 0 < c <= CHUNK) (chunks st)
  /\ (writableEnded st = true -> chunks st = full_chunks size).
Proof.
  intros cfg size Hs Hf H.
  destruct (download_total env fuel rq Hs Hf evs)
    as (st0 & H0 & (_ & Hc & Hsum & _) & Hw & _).
  fold cfg in H0. rewrite H in H0. inversion H0; subst st0; clear H0.
  change (total (dl_context (register env) rq)) with size in *.
  split; [exact (chunked_bounds _ _ Hc)|].
  intros Hwe. specialize (Hw Hwe).
  apply chunked_full; [exact Hc | lia].
Qed.

Lemma chunks_are_full_then_rest_witness :
  let cfg := register env_empty in
  let rq := mkDlReq (Some (js "200000")) "id" 1000 1001
                    (fun n => negb (Nat.eqb n 1)) in
  exists st,
    download cfg 1700 rq [(1007, EvDrain)] = Some st
    /\ Forall (fun c => 0 < c <= CHUNK) (chunks st)
    /\ chunks st = [65536; 65536; 65536; 3392].
Proof.
  intros cfg rq.
  run_session cfg 1700%nat rq [(1007, EvDrain)] ltac:(fun s H =>
    exists s; split; [exact H|];
    pose proof (chunks_are_full_then_rest
                  env_empty 1700 rq [(1007, EvDrain)] s
                  ltac:(vm_compute; discriminate)
                  ltac:(vm_compute; reflexivity) H) as T;
    exact (conj (proj1 T) (proj2 T eq_refl))).
Defined.

(** X6: once the guard is closed, by the end or by an abort, no event
    makes the generator write: the chunks, what remains, the state of the
    response and the terminal lines stay as they are. *)
Theorem closed_download_writes_nothing
        (env : environment) (fuel : nat) (rq : dl_request)
        (evs more : list (Z * dl_event)) (st : dl_state) :
  let cfg := register env in
  download cfg fuel rq evs = Some st ->
  ended st = true ->
  exists st',
    download cfg fuel rq (evs ++ more) = Some st'
    /\ chunks st' = chunks st
    /\ remaining st' = remaining st
    /\ writableEnded st' = writableEnded st
    /\ ends st' = ends st
    /\ aborts st' = aborts st.
Proof.
  intros cfg H E.
  destruct (dl_run_closed (dl_context cfg rq) fuel more st E)
    as (st' & H' & (_ & Hr & Hw & Hc & Hn & Hb & _)).
  exists st'. unfold cfg in *. rewrite download_app, H.
  repeat split; assumption.
Qed.

Lemma closed_download_writes_nothing_witness :
  let cfg := register env_empty in
  let rq := mkDlReq (Some (js "200000")) "id" 1000 1001
                    (fun n => negb (Nat.eqb n 1)) in
  exists st st',
    download cfg 1700 rq [(1005, EvAborted)] = Some st
    /\ ended st = true
    /\ download cfg 1700 rq
                ([(1005, EvAborted)] ++ [(1006, EvDrain); (1007, EvFinish)])
       = Some st'
    /\ chunks st' = chunks st
    /\ remaining st' = remaining st
    /\ writableEnded st' = writableEnded st
    /\ ends st' = ends st
    /\ aborts st' = aborts st.
Proof.
  intros cfg rq.
  run_session cfg 1700%nat rq [(1005, EvAborted)] ltac:(fun s H =>
    destruct (closed_download_writes_nothing
                env_empty 1700 rq [(1005, EvAborted)]
                [(1006, EvDrain); (1007, EvFinish)] s H eq_refl)
      as (s' & T);
    exists s, s'; exact (conj H (conj eq_refl T))).
Defined.

(** X7: a download whose response was ended has its guard closed, exactly
    one end line and no abort line. *)
Theorem completed_download_logs_end
        (env : environment) (fuel : nat) (rq : dl_request)
        (evs : list (Z * dl_event)) (st : dl_state) :
  download (register env) fuel rq evs = Some st ->
  writableEnded st = true ->
  ended st = true /\ ends st = 1%nat /\ aborts st = O.
Proof.
  intros H Hw.
  destruct (download_reach env fuel rq evs st H) as ((Hc & He & Ha) & _).
  specialize (He Hw). rewrite He in Hc.
  destruct Ha as [Ha | [_ Hf]]; [|congruence].
  repeat split; [exact He | lia | exact Ha].
Qed.

Lemma completed_download_logs_end_witness :
  let rq := mkDlReq (Some (js "200000")) "id" 1000 1001
                    (fun n => negb (Nat.eqb n 1)) in
  exists st,
    download (register env_empty) 1700 rq
             [(1007, EvDrain); (1008, EvClose); (1009, EvError "reset")]
    = Some st
    /\ ended st = true /\ ends st = 1%nat /\ aborts st = O.
Proof.
  intros rq.
  run_session (register env_empty) 1700%nat rq
              [(1007, EvDrain); (1008, EvClose); (1009, EvError "reset")]
              ltac:(fun s H =>
    exists s; split; [exact H|];
    exact (completed_download_logs_end
             env_empty 1700 rq
             [(1007, EvDrain); (1008, EvClose); (1009, EvError "reset")] s
             H eq_refl)).
Defined.

(** X8: an abort line is logged only for a download that was cut short:
    bytes remain, the response was not ended, and there is no end line. *)
Theorem abort_means_cut_short
        (env : environment) (fuel : nat) (rq : dl_request)
        (evs : list (Z * dl_event)) (st : dl_state) :
  download (register env) fuel rq evs = Some st ->
  aborts st <> O ->
  aborts st = 1%nat /\ ends st = O /\ ended st = true
  /\ 0 < remaining st /\ writableEnded st = false.
Proof.
  intros H Ha.
  destruct (download_reach env fuel rq evs st H) as ((Hc & _ & Hcut) & _).
  destruct Hcut as [H0 | [Hr Hw]]; [congruence|].
  destruct (ended st); [|lia].
  repeat split; auto; lia.
Qed.

Lemma abort_means_cut_short_witness :
  let rq := mkDlReq (Some (js "200000")) "id" 1000 1001
                    (fun n => negb (Nat.eqb n 1)) in
  exists st,
    download (register env_empty) 1700 rq
             [(1005, EvError "reset"); (1006, EvClose); (1007, EvDrain)]
    = Some st
    /\ aborts st = 1%nat /\ ends st = O /\ ended st = true
    /\ 0 < remaining st /\ writableEnded st = false.
Proof.
  intros rq.
  run_session (register env_empty) 1700%nat rq
              [(1005, EvError "reset"); (1006, EvClose); (1007, EvDrain)]
              ltac:(fun s H =>
    exists s; split; [exact H|];
    exact (abort_means_cut_short
             env_empty 1700 rq
             [(1005, EvError "reset"); (1006, EvClose); (1007, EvDrain)] s
             H ltac:(vm_compute; discriminate))).
Defined.

(** X9: every [drain] makes progress. In a session that is not over, the
    [drain] event either finds bytes remaining and leaves fewer of them, or
    finds none, ends the response and logs the end line. *)
Theorem drain_makes_progress
        (env : environment) (fuel : nat) (rq : dl_request)
        (evs : list (Z * dl_event)) (st : dl_state) (now : Z) :
  let cfg := register env in
  MAX_DOWNLOAD cfg <= MAX_SAFE_INTEGER ->
  MAX_DOWNLOAD cfg / CHUNK + 1 < Z.of_nat fuel ->
  download cfg fuel rq evs = Some st ->
  ended st = false ->
  exists st',
    download cfg fuel rq (evs ++ [(now, EvDrain)]) = Some st'
    /\ if 0 <? remaining st
       then 0 <= remaining st' < remaining st
       else writableEnded st' = true /\ ends st' = 1%nat.
Proof.
  intros cfg Hs Hf H E.
  destruct (download_reach env fuel rq evs st H)
    as ((Hc & _ & _) & (_ & Hl) & Hq).
  destruct Hq as [Hq|Hq]; [congruence|]. rewrite Hq in Hl.
  destruct (download_total env fuel rq Hs Hf evs)
    as (st0 & H0 & (A & _ & Hfu)).
  fold cfg in H0. rewrite H in H0. inversion H0; subst st0; clear H0.
  set (ctx := dl_context (register env) rq) in *.
  assert (Hsafe : total ctx <= MAX_SAFE_INTEGER).
  { pose proof (resolveDownloadSize_bounds env (query_size rq)).
    simpl. unfold cfg in *. lia. }
  set (st1 := dl_emit Resumed (set_drainListeners O st)).
  assert (A1 : accounted ctx st1).
  { unfold accounted, st1 in *. rewrite chunks_resumed. exact A. }
  assert (Hr : 0 <= remaining st <= MAX_SAFE_INTEGER).
  { destruct A as (? & _ & ? & ? & _). lia. }
  destruct (writeLoop_accounted ctx Hsafe fuel st1 A1)
    as (st2 & b & L & _ & _).
  { destruct A as (? & _ & ? & ? & _).
    change (remaining st1) with (remaining st). unfold CHUNK in *. lia. }
  destruct (writeLoop_decreases ctx fuel st1 st2 b Hr L) as (Hpos & Hdec).
  destruct (writeLoop_frame ctx _ _ _ _ L) as (He & _ & Hlog & _).
  unfold cfg in *. rewrite download_app, H. simpl. rewrite Hl. simpl.
  fold ctx. fold st1. unfold writeMore. simpl ended. rewrite E, L.
  change (remaining st1) with (remaining st) in Hdec.
  rewrite E in Hc.
  destruct (0 <? remaining st).
  - destruct b; eexists; (split; [reflexivity|]).
    + unfold endOnce, res_end. simpl. rewrite He. simpl. rewrite E.
      simpl. lia.
    + lia.
  - destruct Hdec as [-> ->]. eexists. split; [reflexivity|].
    unfold endOnce, res_end, ends, aborts in *. simpl. rewrite E. simpl.
    split; [reflexivity | lia].
Qed.

Lemma drain_makes_progress_witness :
  let cfg := register env_empty in
  let rq := mkDlReq (Some (js "200000")) "id" 1000 1001 (fun _ => false) in
  exists st st',
    download cfg 1700 rq [(1002, EvDrain)] = Some st
    /\ remaining st = 68928
    /\ download cfg 1700 rq ([(1002, EvDrain)] ++ [(1003, EvDrain)])
       = Some st'
    /\ 0 <= remaining st' < 68928.
Proof.
  intros cfg rq.
  run_session cfg 1700%nat rq [(1002, EvDrain)] ltac:(fun s H =>
    destruct (drain_makes_progress
                env_empty 1700 rq [(1002, EvDrain)] s 1003
                ltac:(vm_compute; discriminate)
                ltac:(vm_compute; reflexivity) H eq_refl)
      as (s' & H' & T);
    exists s, s'; exact (conj H (conj eq_refl (conj H' T)))).
Defined.

(** X10: every [error] event of the response is logged, whether or not
    the session is over: the log has as many error lines as the session
    had [error] events. *)
Theorem response_errors_all_logged
        (env : environment) (fuel : nat) (rq : dl_request)
        (evs : list (Z * dl_event)) (st : dl_state) :
  download (register env) fuel rq evs = Some st ->
  errors st = List.length (filter is_error_event evs).
Proof.
  unfold download.
  destruct (writeMore _ fuel (sync_end rq) _) as [st0|] eqn:W;
    [|discriminate].
  intros H. rewrite (dl_run_errors _ _ _ _ _ H).
  rewrite (writeMore_errors _ _ _ _ _ W). reflexivity.
Qed.

Lemma response_errors_all_logged_witness :
  let rq := mkDlReq (Some (js "200000")) "id" 1000 1001
                    (fun n => negb (Nat.eqb n 1)) in
  exists st,
    download (register env_empty) 1700 rq
             [(1005, EvError "reset"); (1006, EvClose); (1007, EvError "pipe")]
    = Some st
    /\ errors st = 2%nat.
Proof.
  intros rq.
  run_session (register env_empty) 1700%nat rq
              [(1005, EvError "reset"); (1006, EvClose);
               (1007, EvError "pipe")]
              ltac:(fun s H =>
    exists s; split; [exact H|];
    exact (response_errors_all_logged
             env_empty 1700 rq
             [(1005, EvError "reset"); (1006, EvClose);
              (1007, EvError "pipe")] s H)).
Defined.

Lemma set_drainListeners_same (st : dl_state) :
  drainListeners st = O -> set_drainListeners O st = st.
Proof. destruct st; simpl; intros ->; reflexivity. Qed.

(** X11: a [drain] event that finds the loop not waiting on a saturated
    write does nothing at all. *)
Theorem spurious_drain_is_harmless
        (env : environment) (fuel : nat) (rq : dl_request)
        (evs : list (Z * dl_event)) (st : dl_state) (now : Z) :
  download (register env) fuel rq evs = Some st ->
  saturated (trace st) = false ->
  download (register env) fuel rq (evs ++ [(now, EvDrain)]) = Some st.
Proof.
  intros H Hs.
  destruct (download_reach env fuel rq evs st H) as (_ & (_ & Hl) & _).
  rewrite Hs in Hl. rewrite download_app, H. simpl. rewrite Hl. simpl.
  rewrite (set_drainListeners_same st Hl). reflexivity.
Qed.

Lemma spurious_drain_is_harmless_witness :
  let rq := mkDlReq (Some (js "200000")) "id" 1000 1001 (fun _ => true) in
  download (register env_empty) 1700 rq ([] ++ [(1002, EvDrain)])
  = download (register env_empty) 1700 rq [].
Proof.
  intros rq.
  run_session (register env_empty) 1700%nat rq (@nil (Z * dl_event))
              ltac:(fun s H =>
    rewrite H;
    exact (spurious_drain_is_harmless env_empty 1700 rq [] s 1002 H eq_refl)).
Defined.

(** ** Upload sessions *)

Section Reports.

Variable ctx : ul_ctx.

Lemma ul_handle_reported (now : Z) (e : ul_event) (st : ul_state) :
  reported ctx st -> reported ctx (ul_handle ctx now e st).
Proof.
  intros (Hb & Hf & Hs & Hl).
  destruct e; simpl; unfold on_aborted, on_data, on_end, on_error, finishOnce;
    simpl.
  - destruct (finished st) eqn:F; unfold reported; simpl; rewrite ?F;
      repeat split; auto; try discriminate.
    constructor; simpl; auto.
  - assert (Hn : 0 <= num_add (bytes st) (Z.of_N len))
      by (apply round_double_nonneg; lia).
    destruct (Z.ltb_spec (ceiling ctx) (num_add (bytes st) (Z.of_N len)));
      simpl.
    + destruct (finished st) eqn:F; unfold reported; simpl; rewrite ?F;
        repeat split; auto; try discriminate;
        constructor; simpl; auto.
    + unfold reported; simpl. repeat split; auto.
  - destruct (finished st) eqn:F; unfold reported; simpl; rewrite ?F;
      repeat split; auto; try discriminate;
      constructor; simpl; auto.
  - destruct (finished st) eqn:F; unfold reported; simpl; rewrite ?F;
      repeat split; auto; try discriminate;
      constructor; simpl; auto.
Qed.

Lemma ul_run_reported (evs : list (Z * ul_event)) (st : ul_state) :
  reported ctx st -> reported ctx (ul_run ctx evs st).
Proof.
  revert st. induction evs as [|[now e] evs IH]; intros st H; simpl; auto.
  apply IH, ul_handle_reported, H.
Qed.

Lemma ul_handle_answered (now : Z) (e : ul_event) (st : ul_state) :
  answered ctx st -> answered ctx (ul_handle ctx now e st).
Proof.
  intros (Hs & Hd & Hp).
  destruct e; simpl; unfold on_aborted, on_data, on_end, on_error, finishOnce;
    simpl.
  2: destruct (ceiling ctx <? num_add (bytes st) (Z.of_N len)); simpl.
  all: destruct (finished st) eqn:F; unfold answered; simpl;
    rewrite ?flat_map_app, ?Hs, <- ?Hd; simpl; rewrite ?app_nil_r;
    repeat split; auto.
  all: destruct (destroyed st); auto.
Qed.

Lemma ul_run_answered (evs : list (Z * ul_event)) (st : ul_state) :
  answered ctx st -> answered ctx (ul_run ctx evs st).
Proof.
  revert st. induction evs as [|[now e] evs IH]; intros st H; simpl; auto.
  apply IH, ul_handle_answered, H.
Qed.

Lemma on_data_bytes (now : Z) (len : N) (st : ul_state) :
  bytes (on_data ctx now len st) = num_add (bytes st) (Z.of_N len).
Proof.
  unfold on_data, finishOnce. simpl.
  destruct (ceiling ctx <? _); simpl; [|reflexivity].
  destruct (finished st); reflexivity.
Qed.

(** Every fragment is counted or held back. *)
Lemma transport_conserves (evs : list (Z * ul_event)) (st : ul_state) :
  0 <= bytes st ->
  bytes st + sumN (data_of evs) <= MAX_SAFE_INTEGER ->
  bytes (fst (ul_transport ctx evs st)) + sumN (snd (ul_transport ctx evs st))
  = bytes st + sumN (data_of evs).
Proof.
  revert st. induction evs as [|[now e] evs IH]; intros st Hb Hs.
  - simpl. lia.
  - pose proof (sumN_nonneg (data_of evs)) as Hn.
    destruct e; cbn [ul_transport data_of] in *.
    + rewrite IH; unfold ul_handle, on_aborted, finishOnce;
        destruct (finished st); simpl; lia.
    + cbn [sumN fold_right] in Hs. fold (sumN (data_of evs)) in Hs.
      destruct (flowing st).
      * rewrite IH; rewrite on_data_bytes, num_add_exact; try lia.
        simpl. lia.
      * specialize (IH st Hb ltac:(lia)).
        destruct (ul_transport ctx evs st) as [st' held]. simpl in *. lia.
    + rewrite IH; unfold ul_handle, on_end, finishOnce;
        destruct (finished st); simpl; lia.
    + rewrite IH; unfold ul_handle, on_error, finishOnce;
        destruct (finished st); simpl; lia.
Qed.

End Reports.

(** X12: whatever the events, a 200 and its end line report a count
    between 0 and [MAX_UPLOAD], the line of a 413 reports a count above
    [MAX_UPLOAD], and while the guard is open the count is within the
    ceiling. *)
Theorem upload_reports_within_ceiling
        (env : environment) (reqId : string) (start : Z)
        (evs : list (Z * ul_event)) :
  let cfg := register env in
  let ctx := ul_context cfg reqId start in
  let st := upload cfg reqId start evs in
  Forall (reply_within ctx) (sent st)
  /\ Forall (line_within ctx) (ul_log st)
  /\ 0 <= bytes st
  /\ (if finished st then True else bytes st <= MAX_UPLOAD cfg).
Proof.
  intros cfg ctx st.
  assert (R : reported ctx st).
  { apply ul_run_reported. destruct (register_pos env) as (_ & _ & Hu).
    split; [simpl; lia|].
    split; [intros _; change (0 <= MAX_UPLOAD (register env)); lia|].
    split; [constructor|].
    constructor; [exact I | constructor]. }
  destruct R as (Hb & Hf & Hs & Hl). repeat split; auto.
  destruct (finished st); [exact I | apply Hf; reflexivity].
Qed.

(** X13: the response follows the log. What was sent is the reply of the
    terminal line, if there is one that has a reply; the request is
    destroyed exactly when the too-large line was logged, and then it is
    paused too. *)
Theorem upload_reply_matches_log
        (cfg : config) (reqId : string) (start : Z)
        (evs : list (Z * ul_event)) :
  let ctx := ul_context cfg reqId start in
  let st := upload cfg reqId start evs in
  rev (sent st) = flat_map (reply_of ctx) (rev (ul_log st))
  /\ destroyed st = existsb is_too_large (ul_log st)
  /\ implb (destroyed st) (paused st) = true.
Proof.
  intros ctx st. apply (ul_run_answered ctx evs (ul_init reqId)).
  repeat split.
Qed.

(** X14: on the transport every fragment is counted or held back: the
    count and the fragments held back add up to the fragments offered, in
    any interleaving with the other events. *)
Theorem fragments_counted_or_held
        (cfg : config) (reqId : string) (start : Z)
        (evs : list (Z * ul_event)) :
  let ctx := ul_context cfg reqId start in
  let final := ul_transport ctx evs (ul_init reqId) in
  sumN (data_of evs) <= MAX_SAFE_INTEGER ->
  bytes (fst final) + sumN (snd final) = sumN (data_of evs).
Proof.
  intros ctx final Hs. unfold final.
  rewrite (transport_conserves ctx evs (ul_init reqId)); simpl; lia.
Qed.

Lemma fragments_counted_or_held_witness :
  let cfg := mkConfig 10 10 100 in
  let ctx := ul_context cfg "u" 5 in
  let evs := [(6, UpData 60%N); (7, UpError "reset"); (8, UpData 50%N);
              (9, UpData 7%N); (10, UpEnd)] in
  let final := ul_transport ctx evs (ul_init "u") in
  bytes (fst final) + sumN (snd final) = 117
  /\ snd final = [7%N].
Proof.
  split; [|reflexivity].
  exact (fragments_counted_or_held
           (mkConfig 10 10 100) "u" 5
           [(6, UpData 60%N); (7, UpError "reset"); (8, UpData 50%N);
            (9, UpData 7%N); (10, UpEnd)]
           ltac:(vm_compute; discriminate)).
Defined.

(* ================================================================= *)
(** * Completion of a download *)

Section Completion.

Variable ctx : dl_ctx.
Variable fuel : nat.
Hypothesis total_safe : total ctx <= MAX_SAFE_INTEGER.

(** An entered loop writes at least its first chunk. *)
Lemma writeLoop_chunk (n : nat) (st st' : dl_state) (b : bool) :
  0 <= remaining st <= MAX_SAFE_INTEGER ->
  writeLoop ctx n st = Some (st', b) ->
  0 < remaining st ->
  remaining st' <= remaining st - Z.min CHUNK (remaining st).
Proof.
  intros Hr H Hgt. destruct n as [|n]; simpl in H; [discriminate|].
  destruct (Z.ltb_spec 0 (remaining st)) as [_|]; [|lia].
  set (len := Z.min CHUNK (remaining st)) in *.
  assert (Hlen : 0 < len <= remaining st) by (unfold len, CHUNK; lia).
  rewrite (num_sub_exact (remaining st) len) in H by lia.
  destruct (res_write ctx _).
  - apply writeLoop_decreases in H; simpl remaining in *; [|lia].
    destruct H as [_ H].
    destruct (0 <? remaining st - len); [lia|].
    destruct H as [-> _]. simpl. lia.
  - inversion H; subst; clear H. simpl. lia.
Qed.

Lemma writeMore_open (now : Z) (st st' : dl_state) :
  0 <= remaining st <= MAX_SAFE_INTEGER ->
  ended st = false ->
  writeMore ctx fuel now st = Some st' ->
  (ended st' = true -> writableEnded st' = true)
  /\ if 0 <? remaining st
     then remaining st' <= remaining st - Z.min CHUNK (remaining st)
     else writableEnded st' = true.
Proof.
  intros Hr E. unfold writeMore. rewrite E.
  destruct (writeLoop ctx fuel st) as [[st1 b]|] eqn:L; [|discriminate].
  destruct (writeLoop_frame ctx _ _ _ _ L) as (He & _).
  destruct (writeLoop_decreases ctx _ _ _ _ Hr L) as (_ & Hd).
  destruct b; intros H; inversion H; subst; clear H.
  - assert (Hw : writableEnded (endOnce ctx now (res_end st1)) = true).
    { unfold endOnce, res_end. simpl. rewrite He, E. reflexivity. }
    assert (Hrem : remaining (endOnce ctx now (res_end st1)) = remaining st1).
    { unfold endOnce, res_end. simpl. rewrite He, E. reflexivity. }
    split; [intros _; exact Hw|].
    destruct (Z.ltb_spec 0 (remaining st)) as [Hgt|]; [|exact Hw].
    rewrite Hrem. apply (writeLoop_chunk _ _ _ _ Hr L Hgt).
  - split; [congruence|].
    destruct (Z.ltb_spec 0 (remaining st)) as [Hgt|].
    + apply (writeLoop_chunk _ _ _ _ Hr L Hgt).
    + destruct Hd. discriminate.
Qed.

Lemma draining_range (st : dl_state) :
  draining ctx fuel st -> 0 <= remaining st <= MAX_SAFE_INTEGER.
Proof. intros (((? & _ & ? & ? & _) & _) & _). lia. Qed.

(** One [drain]: a response that was ended stays ended; an open session
    writes at least one chunk, or ends the response when nothing is left. *)
Lemma drain_step (now : Z) (st : dl_state) :
  draining ctx fuel st ->
  exists st',
    dl_handle ctx fuel now EvDrain st = Some st'
    /\ draining ctx fuel st'
    /\ (writableEnded st = true -> writableEnded st' = true)
    /\ (writableEnded st = false ->
        if 0 <? remaining st
        then remaining st' <= remaining st - Z.min CHUNK (remaining st)
        else writableEnded st' = true).
Proof.
  intros D. pose proof (draining_range st D) as Hr.
  destruct D as (S & R & Q & W).
  destruct (dl_handle_streaming ctx total_safe fuel now EvDrain st S)
    as (st' & H & S').
  destruct (dl_handle_flow ctx fuel now EvDrain st st' H (conj R Q))
    as (R' & Q').
  exists st'. split; [exact H|].
  destruct (ended st) eqn:E.
  - specialize (W eq_refl).
    destruct (dl_handle_closed ctx fuel now EvDrain st E)
      as (st'' & H'' & (E' & _ & Hw & _)).
    rewrite H in H''. inversion H''; subst st''; clear H''.
    split; [|split; [intros _; congruence | intros Hx; congruence]].
    split; [exact S'|]. split; [exact R'|]. split; [exact Q'|].
    intros _. congruence.
  - destruct Q as [Q|Q]; [congruence|].
    destruct R as (_ & Hl). rewrite Q in Hl.
    simpl in H. rewrite Hl in H. simpl in H.
    destruct (writeMore ctx fuel now (dl_emit Resumed (set_drainListeners O st)))
      as [s|] eqn:M; [|discriminate].
    inversion H; subst s; clear H.
    destruct (writeMore_open now (dl_emit Resumed (set_drainListeners O st))
                             st' Hr E M) as (W' & P).
    change (remaining (dl_emit Resumed (set_drainListeners O st)))
      with (remaining st) in P.
    split; [exact (conj S' (conj R' (conj Q' W')))|]. split.
    + intros Hw. destruct S as (_ & Hz & _). specialize (Hz Hw).
      rewrite Hz in P. exact P.
    + intros _. exact P.
Qed.

(** Enough [drain] events end the response. *)
Lemma drains_complete (times : list Z) (st : dl_state) :
  draining ctx fuel st ->
  writableEnded st = true
  \/ remaining st <= CHUNK * (Z.of_nat (List.length times) - 1) ->
  exists st',
    dl_run ctx fuel (drains times) st = Some st'
    /\ draining ctx fuel st'
    /\ writableEnded st' = true.
Proof.
  revert st. induction times as [|t times IH]; intros st D Hb.
  - exists st. split; [reflexivity|]. split; [exact D|].
    destruct Hb as [Hw|Hb]; [exact Hw|].
    pose proof (draining_range st D). unfold CHUNK in Hb. simpl in Hb. lia.
  - destruct (drain_step t st D) as (st1 & H & D1 & Hkeep & Hgo).
    cbn [drains map dl_run]. rewrite H. apply (IH st1 D1).
    destruct (writableEnded st) eqn:Hw; [left; auto|].
    specialize (Hgo eq_refl). destruct Hb as [Hb|Hb]; [discriminate|].
    pose proof (draining_range st D) as Hr.
    pose proof (draining_range st1 D1) as Hr1.
    cbn [List.length] in Hb. rewrite Nat2Z.inj_succ in Hb.
    destruct (Z.ltb_spec 0 (remaining st)); [right | left; exact Hgo].
    unfold CHUNK in *. lia.
Qed.

End Completion.

(** C3: the length declared in [Content-Length] is the resolved size; each
    chunk is [min(CHUNK, remaining)]; the chunks written and the bytes that
    remain always add up to the declared length; a session that is not over
    is suspended on a refused write; once the loop has run to [res.end()]
    the chunks add up to exactly the declared length; and a download whose
    consumer drains often enough does run to [res.end()], with exactly that
    many bytes written and none remaining. *)
Theorem download_writes_declared_length
        (env : environment) (fuel : nat) (rq : dl_request)
        (evs : list (Z * dl_event)) (times : list Z) :
  let cfg := register env in
  let size := resolveDownloadSize cfg (query_size rq) in
  MAX_DOWNLOAD cfg <= MAX_SAFE_INTEGER ->
  MAX_DOWNLOAD cfg / CHUNK + 1 < Z.of_nat fuel ->
  (exists st,
      download cfg fuel rq evs = Some st
      /\ contentLength st = Some size
      /\ chunked size (chunks st)
      /\ sumZ (chunks st) + remaining st = size
      /\ 0 <= remaining st
      /\ (if writableEnded st then sumZ (chunks st) = size
          else sumZ (chunks st) <= size)
      /\ (ended st = true \/ saturated (trace st) = true))
  /\ (size / CHUNK < Z.of_nat (List.length times) ->
      exists st,
        download cfg fuel rq (drains times) = Some st
        /\ writableEnded st = true
        /\ contentLength st = Some size
        /\ chunked size (chunks st)
        /\ sumZ (chunks st) = size
        /\ remaining st = 0).
Proof.
  intros cfg size Hs Hf. split.
  - destruct (download_total env fuel rq Hs Hf evs)
      as (st & H & (Hr & Hc & Hsum & _ & Hcl) & Hw & _).
    destruct (download_reach env fuel rq evs st H) as (_ & _ & Hq).
    exists st. change (total (dl_context (register env) rq)) with size in *.
    repeat split; auto.
    destruct (writableEnded st); [specialize (Hw eq_refl)|]; lia.
  - intros Hn.
    destruct (download_total env fuel rq Hs Hf []) as (st0 & H0 & S0).
    destruct (download_reach env fuel rq [] st0 H0) as (_ & R0 & Q0).
    fold cfg in H0, S0. set (ctx := dl_context cfg rq) in *.
    assert (W : writeMore ctx fuel (sync_end rq) (dl_init cfg rq) = Some st0).
    { unfold download in H0. fold ctx in H0.
      destruct (writeMore ctx fuel (sync_end rq) (dl_init cfg rq));
        simpl in H0; congruence. }
    destruct (resolveDownloadSize_bounds env (query_size rq)) as [Hlo Hhi].
    fold cfg in Hlo, Hhi. fold size in Hlo, Hhi.
    assert (Hsafe : total ctx <= MAX_SAFE_INTEGER)
      by (change (total ctx) with size; lia).
    assert (Hinit : 0 <= remaining (dl_init cfg rq) <= MAX_SAFE_INTEGER)
      by (change (remaining (dl_init cfg rq)) with size; lia).
    destruct (writeMore_open ctx fuel _ _ _ Hinit eq_refl W) as (W0 & P0).
    change (remaining (dl_init cfg rq)) with size in P0.
    destruct (Z.ltb_spec 0 size) as [_|]; [|lia].
    assert (D0 : draining ctx fuel st0)
      by exact (conj S0 (conj R0 (conj Q0 W0))).
    destruct (drains_complete ctx fuel Hsafe times st0 D0)
      as (st & H & ((A & Hz & _) & _) & Hw).
    { right.
      pose proof (Z.div_mod size CHUNK ltac:(discriminate)) as Hdm.
      pose proof (Z.mod_pos_bound size CHUNK ltac:(reflexivity)) as Hmb.
      unfold CHUNK in *. lia. }
    exists st. split.
    { unfold download. fold ctx. rewrite W. exact H. }
    destruct A as (_ & Hc & Hsum & _ & Hcl).
    specialize (Hz Hw). change (total ctx) with size in *.
    repeat split; auto. lia.
Qed.

Lemma download_writes_declared_length_witness :
  let cfg := register env_empty in
  let rq := mkDlReq (Some (js "200000")) "id" 1000 1001
                    (fun n => negb (Nat.eqb n 1)) in
  (exists st,
      download cfg 1700 rq [(1005, EvAborted)] = Some st
      /\ contentLength st = Some 200000
      /\ chunked 200000 (chunks st)
      /\ sumZ (chunks st) + remaining st = 200000
      /\ 0 <= remaining st
      /\ (if writableEnded st then sumZ (chunks st) = 200000
          else sumZ (chunks st) <= 200000)
      /\ (ended st = true \/ saturated (trace st) = true))
  /\ (exists st,
        download cfg 1700 rq (drains [1007; 1008; 1009; 1010]) = Some st
        /\ writableEnded st = true
        /\ contentLength st = Some 200000
        /\ chunked 200000 (chunks st)
        /\ sumZ (chunks st) = 200000
        /\ remaining st = 0).
Proof.
  intros cfg rq.
  pose proof (download_writes_declared_length
                env_empty 1700 rq [(1005, EvAborted)]
                [1007; 1008; 1009; 1010]
                ltac:(vm_compute; discriminate)
                ltac:(vm_compute; reflexivity)) as H.
  exact (conj (proj1 H) (proj2 H ltac:(vm_compute; reflexivity))).
Defined.
